(** * ArchiveMaster: the archive merge engine ([ArchiveMerger])

    A shallow embedding of [src/archivemaster.py]: class [ArchiveMerger]
    (lines 39-197), the [with ArchiveMerger(..) as merger:] block of its
    two callers, [cli_mode] (lines 497-544) and the three methods of
    [ArchiveMasterGUI] that keep the file list (lines 319-353).

    The archive codecs (zipfile, rarfile, tarfile), pathlib, argparse
    and the file system are libraries the program drives; they are
    modelled by what the program observes of them:
    - a [str] is a string of bytes (UTF-8), so comparing bytes compares
      code points; [lower] moves the ASCII letters, which decides the
      dispatch for any text and is [str.lower] on ASCII text;
    - a path is pathlib's tuple of [parts], compared part by part;
    - the file system is a finite map from locations to nodes (a
      directory, or a regular file with its bytes), without symbolic
      links, modes and permission errors; the working directory is the
      root directory;
    - an input archive is the list of entries its library reports; the
      input archives and the output file are not nodes of the tree that
      extraction writes to. A statement that needs the two kept apart
      is made for inputs that cannot write over the output
      ([clear_of_output]);
    - opening the output for writing is taken to succeed, and the
      writer to store the name and the bytes it is handed; what is said
      of the output of a run is said of a run that returns;
    - tarfile extracts with its permissive filter, to the location the
      joined path names;
    - [parse_args] is what it does with the command line: it ends the
      process or returns the namespace;
    - logging, the progress lock and the two measurements of the result
      ([elapsed_seconds], [output_size_bytes]) are left out. *)

From Stdlib Require Import ZArith Ascii String.
From stdpp Require Import base strings list gmap sorting.

Local Open Scope string_scope.
Local Open Scope list_scope.

(** ** Strings: the [str] methods the program calls *)

(** [str.lower] on one character. The extensions the program compares
    against are ASCII; no character outside ASCII lower-cases to one of
    their letters, so only A-Z need to move for the dispatch. The text
    returned is that of [str.lower] when the text is ASCII. *)
Definition lower_char (c : ascii) : ascii :=
  let n := N_of_ascii c in
  if ((65 <=? n) && (n <=? 90))%N then ascii_of_N (n + 32) else c.

Fixpoint lower (s : string) : string :=
  match s with
  | EmptyString => EmptyString
  | String c r => String (lower_char c) (lower r)
  end.

(** [s.endswith(suf)] *)
Fixpoint endswith (s suf : string) : bool :=
  String.eqb s suf ||
  match s with
  | EmptyString => false
  | String _ r => endswith r suf
  end.

(** [s.rfind(c)]: the highest index of [c] in [s], or [-1]. *)
Fixpoint rfind (c : ascii) (s : string) : Z :=
  match s with
  | EmptyString => (-1)%Z
  | String a r =>
      let i := rfind c r in
      if (0 <=? i)%Z then (i + 1)%Z
      else if Ascii.eqb a c then 0%Z else (-1)%Z
  end.

(** the slice [s[i:]] for [0 <= i] *)
Fixpoint slice_from (i : nat) (s : string) : string :=
  match i, s with
  | O, _ => s
  | S _, EmptyString => EmptyString
  | S j, String _ r => slice_from j r
  end.

(** [s.split(sep)] for a one-character separator *)
Fixpoint split (sep : ascii) (s : string) : list string :=
  match s with
  | EmptyString => [EmptyString]
  | String c r =>
      if Ascii.eqb c sep then EmptyString :: split sep r
      else match split sep r with
           | [] => [String c EmptyString]
           | p :: ps => String c p :: ps
           end
  end.

(** [s.lstrip(c)] *)
Fixpoint lstrip (c : ascii) (s : string) : string :=
  match s with
  | EmptyString => EmptyString
  | String a r => if Ascii.eqb a c then lstrip c r else s
  end.

(** ** Lexicographic comparison, as Python compares [str] and [list] *)

Fixpoint lex_ltb {A} (ltb : A → A → bool) (l1 l2 : list A) : bool :=
  match l1, l2 with
  | _, [] => false
  | [], _ :: _ => true
  | a :: r1, b :: r2 =>
      if ltb a b then true
      else if ltb b a then false
      else lex_ltb ltb r1 r2
  end.

Definition ascii_ltb (a b : ascii) : bool := (N_of_ascii a <? N_of_ascii b)%N.

(** [s1 < s2] on [str]: by code point, a proper prefix first. *)
Definition str_ltb (s1 s2 : string) : bool :=
  lex_ltb ascii_ltb (list_ascii_of_string s1) (list_ascii_of_string s2).

(** ** pathlib: [PurePosixPath] as its [parts] *)

Module PurePath.

(** [Path.parts]: the anchor (["/"] or ["//"]) first when the path is
    absolute, then the components. *)
Definition t := list string.

(** POSIX [splitroot]: the root and the rest of one segment. *)
Definition splitroot (part : string) : string * string :=
  match part with
  | String "/" _ =>
      let stripped := lstrip "/" part in
      if Nat.eqb (String.length part - String.length stripped) 2
      then ("//", stripped) else ("/", stripped)
  | _ => ("", part)
  end.

Definition keep_part (x : string) : bool :=
  negb (String.eqb x "") && negb (String.eqb x ".").

(** [Path(s)]: parsing one string into parts; empty components and
    ["."] are dropped, [".."] is kept. *)
Definition parse (s : string) : t :=
  let '(root, rel) := splitroot s in
  ((if String.eqb root "" then [] else [root]) ++
   List.filter keep_part (split "/" rel)).

Definition is_root (x : string) : bool :=
  String.eqb x "/" || String.eqb x "//".

(** a path has a root when its first part is an anchor *)
Definition has_root (p : t) : bool :=
  match p with
  | r :: _ => is_root r
  | [] => false
  end.

(** [p / q] for an already parsed [q]: a rooted right operand replaces
    the left one. *)
Definition joinpath (p q : t) : t :=
  if has_root q then q else (p ++ q).

(** [p / member] with [member] a [str] *)
Definition truediv (p : t) (member : string) : t :=
  joinpath p (parse member).

(** [p.parent] *)
Definition parent (p : t) : t :=
  match p with
  | [r] => if is_root r then [r] else []
  | _ => removelast p
  end.

(** [p.name]: the final component, [""] for a bare anchor. *)
Definition name (p : t) : string :=
  match p with
  | [r] => if is_root r then "" else r
  | _ => List.last p ""
  end.

(** [p.suffix]: from the last dot of the name, when that dot is neither
    the first nor the last character. *)
Definition suffix (p : t) : string :=
  let nm := name p in
  let i := rfind "." nm in
  if ((0 <? i) && (i <? Z.of_nat (String.length nm) - 1))%Z
  then slice_from (Z.to_nat i) nm
  else "".

Fixpoint is_prefixb (base p : t) : bool :=
  match base, p with
  | [], _ => true
  | _ :: _, [] => false
  | a :: r1, b :: r2 => String.eqb a b && is_prefixb r1 r2
  end.

(** [p.relative_to(base)], lexical; [None] is the [ValueError]. *)
Definition relative_to (p base : t) : option t :=
  match base with
  | [] => if has_root p then None else Some p
  | _ => if is_prefixb base p then Some (drop (length base) p) else None
  end.

(** [p < q]: pathlib compares the parts as sequences. *)
Definition ltb (p q : t) : bool := lex_ltb str_ltb p q.

(** "not after": [p <= q] *)
Definition le (p q : t) : Prop := ltb q p = false.

End PurePath.

Abbreviation Path := PurePath.t.

(** [sorted(paths)]: a stable sort by [<]. *)
Fixpoint insert_sorted (x : Path) (l : list Path) : list Path :=
  match l with
  | [] => [x]
  | y :: r => if PurePath.ltb y x then y :: insert_sorted x r else x :: y :: r
  end.

Fixpoint sorted (l : list Path) : list Path :=
  match l with
  | [] => []
  | x :: r => insert_sorted x (sorted r)
  end.

(** ** Exceptions and results *)

Inductive errno := ENOENT | ENOTDIR | EEXIST | EISDIR.

Inductive exn :=
| OSError (e : errno)          (* FileNotFoundError, NotADirectoryError, ... *)
| ValueError (msg : string)
| TypeError
| KeyError
| BadZipFile                   (* zipfile: not a zip file *)
| NotRarFile                   (* rarfile: not a rar file *)
| ReadError.                   (* tarfile: not a tar file *)

Inductive result (A : Type) :=
| Ok (a : A)
| Raise (e : exn).
Arguments Ok {A} a.
Arguments Raise {A} e.

(** [relative_to] failing (pathlib's message, shortened) *)
Definition not_in_subpath : exn := ValueError "is not in the subpath of".

Definition is_ok {A} (r : result A) : bool :=
  match r with
  | Ok _ => true
  | Raise _ => false
  end.

(** ** The file system *)

Inductive node :=
| Dir
| File (data : string).

Module FS.

(** A location is the list of names from the root directory; the root
    itself, [[]], is always a directory. *)
Definition node_at (fs : gmap (list string) node) (l : list string) : option node :=
  match l with
  | [] => Some Dir
  | _ => fs !! l
  end.

(** Following the components of a path through directories, as the
    kernel does: [".."] goes up, every other name must be a directory.
    A path without an anchor starts at the working directory, taken to
    be the root; pathlib's parts hold no ["."] and no empty name. *)
Fixpoint walk (fs : gmap (list string) node) (cur : list string)
    (comps : Path) : result (list string) :=
  match comps with
  | [] => Ok cur
  | c :: rest =>
      if PurePath.is_root c then walk fs [] rest
      else if String.eqb c ".." then walk fs (removelast cur) rest
      else match node_at fs (cur ++ [c]) with
           | Some Dir => walk fs (cur ++ [c]) rest
           | Some (File _) => Raise (OSError ENOTDIR)
           | None => Raise (OSError ENOENT)
           end
  end.

(** the directory part and the final component of a path *)
Definition split_last (p : Path) : option (Path * string) :=
  match p with
  | [] => None
  | _ => Some (removelast p, List.last p "")
  end.

(** the final component names the directory reached itself *)
Definition names_dir (c : string) : bool :=
  PurePath.is_root c || String.eqb c "..".

(** [os.stat(p)] *)
Definition stat (fs : gmap (list string) node) (p : Path) : result node :=
  match split_last p with
  | None => Ok Dir
  | Some (d, c) =>
      match walk fs [] d with
      | Raise e => Raise e
      | Ok cur =>
          if names_dir c then Ok Dir
          else match node_at fs (cur ++ [c]) with
               | Some n => Ok n
               | None => Raise (OSError ENOENT)
               end
      end
  end.

(** [p.exists()] *)
Definition exists_ (fs : gmap (list string) node) (p : Path) : bool :=
  match stat fs p with
  | Ok _ => true
  | Raise _ => false
  end.

(** [p.is_dir()] *)
Definition is_dir (fs : gmap (list string) node) (p : Path) : bool :=
  match stat fs p with
  | Ok Dir => true
  | _ => false
  end.

(** [os.mkdir(p)] *)
Definition os_mkdir (fs : gmap (list string) node) (p : Path)
    : result (gmap (list string) node) :=
  match split_last p with
  | None => Raise (OSError EEXIST)
  | Some (d, c) =>
      match walk fs [] d with
      | Raise e => Raise e
      | Ok cur =>
          if names_dir c then Raise (OSError EEXIST)
          else match node_at fs (cur ++ [c]) with
               | Some _ => Raise (OSError EEXIST)
               | None => Ok (<[(cur ++ [c]) := Dir]> fs)
               end
      end
  end.

(** [p.mkdir(parents=False, exist_ok=True)] *)
Definition mkdir_exist_ok (fs : gmap (list string) node) (p : Path)
    : result (gmap (list string) node) :=
  match os_mkdir fs p with
  | Ok fs' => Ok fs'
  | Raise (OSError ENOENT) => Raise (OSError ENOENT)
  | Raise e => if is_dir fs p then Ok fs else Raise e
  end.

(** [p.mkdir(parents=True, exist_ok=True)], pathlib's recursion on the
    parent; [n] bounds the depth and [length p] is enough. *)
Fixpoint mkdir_parents_aux (n : nat) (fs : gmap (list string) node) (p : Path)
    : result (gmap (list string) node) :=
  match os_mkdir fs p with
  | Ok fs' => Ok fs'
  | Raise (OSError ENOENT) =>
      match n with
      | O => Raise (OSError ENOENT)
      | S n' =>
          if decide (PurePath.parent p = p) then Raise (OSError ENOENT)
          else match mkdir_parents_aux n' fs (PurePath.parent p) with
               | Raise e => Raise e
               | Ok fs1 => mkdir_exist_ok fs1 p
               end
      end
  | Raise e => if is_dir fs p then Ok fs else Raise e
  end.

Definition mkdir_parents (fs : gmap (list string) node) (p : Path)
    : result (gmap (list string) node) :=
  mkdir_parents_aux (length p) fs p.

(** [open(p, 'wb')] followed by writing [data] and closing *)
Definition write_file (fs : gmap (list string) node) (p : Path) (data : string)
    : result (gmap (list string) node) :=
  match split_last p with
  | None => Raise (OSError EISDIR)
  | Some (d, c) =>
      match walk fs [] d with
      | Raise e => Raise e
      | Ok cur =>
          if names_dir c then Raise (OSError EISDIR)
          else match node_at fs (cur ++ [c]) with
               | Some Dir => Raise (OSError EISDIR)
               | _ => Ok (<[(cur ++ [c]) := File data]> fs)
               end
      end
  end.

(** the location of a directory path *)
Definition dir_location (fs : gmap (list string) node) (p : Path)
    : option (list string) :=
  match walk fs [] p with
  | Ok l => Some l
  | Raise _ => None
  end.

(** [shutil.rmtree(p, ignore_errors=True)]: the directory and all below
    it go; anything that is not a directory is left alone. *)
Definition rmtree (fs : gmap (list string) node) (p : Path)
    : gmap (list string) node :=
  match dir_location fs p with
  | Some l => filter (λ kv, ¬ l `prefix_of` kv.1) fs
  | None => fs
  end.

End FS.

(** ** Archives, as their libraries list them *)

(** one entry of a ZIP or RAR archive: its name in [namelist()] and the
    bytes stored for it; a directory entry has a name ending in ["/"]. *)
Record entry := { ename : string; edata : string }.

Inductive tar_type := REGTYPE | DIRTYPE | SYMTYPE | LNKTYPE | FIFOTYPE.

(** a [TarInfo] together with the bytes of the member *)
Record tarinfo := { tname : string; ttype : tar_type; tdata : string }.

(** [member.isfile()] *)
Definition isfile (m : tarinfo) : bool :=
  match ttype m with
  | REGTYPE => true
  | _ => false
  end.

(** what is stored at an input path *)
Inductive container :=
| Missing                          (* no such file *)
| Junk                             (* a file no codec recognises *)
| ZipC (es : list entry)
| RarC (es : list entry)
| TarC (ms : list tarinfo).        (* plain, gzip or bzip2: 'r' detects it *)

(** an input of the merge: the [Path] given and the file found there *)
Record archive := { apath : Path; stored : container }.

(** [zipfile.ZipFile(path, 'r')] *)
Definition open_zip (a : archive) : result (list entry) :=
  match stored a with
  | ZipC es => Ok es
  | Missing => Raise (OSError ENOENT)
  | _ => Raise BadZipFile
  end.

(** [rarfile.RarFile(path)] *)
Definition open_rar (a : archive) : result (list entry) :=
  match stored a with
  | RarC es => Ok es
  | Missing => Raise (OSError ENOENT)
  | _ => Raise NotRarFile
  end.

(** [tarfile.open(path, 'r')] *)
Definition open_tar (a : archive) : result (list tarinfo) :=
  match stored a with
  | TarC ms => Ok ms
  | Missing => Raise (OSError ENOENT)
  | _ => Raise ReadError
  end.

Definition namelist (es : list entry) : list string := map ename es.

(** [zf.open(name).read()]: the archive's name table maps a name to the
    last entry stored under it. *)
Fixpoint read_member (es : list entry) (name : string) : result string :=
  match es with
  | [] => Raise KeyError
  | e :: r =>
      match read_member r name with
      | Ok d => Ok d
      | Raise _ => if String.eqb (ename e) name then Ok (edata e) else Raise KeyError
      end
  end.

(** ** The output container *)

(** how the output was opened: [zipfile.ZipFile(.., 'w', ZIP_DEFLATED,
    compresslevel)] or [tarfile.open(.., mode)] *)
Inductive container_format :=
| ZipDeflated (compresslevel : Z)
| TarMode (mode : string).

(** one [zf.write(file_path, relative_path)] or [tf.add(file_path,
    arcname=relative_path)]: the name handed over and the file-system
    object found at [file_path] *)
Record out_member := { arcname : Path; source : node }.

Record out_archive := { format : container_format; members : list out_member }.

(** ** The merger object and the world it runs in *)

Record ArchiveMerger := {
  output_path : Path;
  compression_level : Z;
  temp_dir : option Path;
  extracted_files : list Path;
  total_files : nat;
  processed_files : nat
}.

(** [fs] is the file system reached through [temp_dir]; [out_file] is the
    file at [output_path] (absent, or a container), which lies outside
    every extraction target, as do the input archives. *)
Record state := {
  self : ArchiveMerger;
  fs : gmap (list string) node;
  out_file : option out_archive
}.

Definition with_self (f : ArchiveMerger → ArchiveMerger) (s : state) : state :=
  {| self := f (self s); fs := fs s; out_file := out_file s |}.

Definition with_fs (f : gmap (list string) node) (s : state) : state :=
  {| self := self s; fs := f; out_file := out_file s |}.

Definition with_out (o : option out_archive) (s : state) : state :=
  {| self := self s; fs := fs s; out_file := o |}.

Definition set_temp_dir (d : option Path) (m : ArchiveMerger) : ArchiveMerger :=
  {| output_path := output_path m; compression_level := compression_level m;
     temp_dir := d; extracted_files := extracted_files m;
     total_files := total_files m; processed_files := processed_files m |}.

Definition set_extracted_files (l : list Path) (m : ArchiveMerger) : ArchiveMerger :=
  {| output_path := output_path m; compression_level := compression_level m;
     temp_dir := temp_dir m; extracted_files := l;
     total_files := total_files m; processed_files := processed_files m |}.

Definition set_total_files (n : nat) (m : ArchiveMerger) : ArchiveMerger :=
  {| output_path := output_path m; compression_level := compression_level m;
     temp_dir := temp_dir m; extracted_files := extracted_files m;
     total_files := n; processed_files := processed_files m |}.

Definition set_processed_files (n : nat) (m : ArchiveMerger) : ArchiveMerger :=
  {| output_path := output_path m; compression_level := compression_level m;
     temp_dir := temp_dir m; extracted_files := extracted_files m;
     total_files := total_files m; processed_files := n |}.

(** ** A state-and-exception monad for the methods *)

Definition M (A : Type) : Type := state → result A * state.

Definition ret {A} (a : A) : M A := λ s, (Ok a, s).

Definition raise {A} (e : exn) : M A := λ s, (Raise e, s).

Definition bind {A B} (m : M A) (k : A → M B) : M B :=
  λ s, match m s with
       | (Ok a, s') => k a s'
       | (Raise e, s') => (Raise e, s')
       end.

Notation "x <- m ;; k" := (bind m (λ x, k))
  (at level 100, m at next level, right associativity).
Notation "m ;;; k" := (bind m (λ _, k))
  (at level 100, right associativity).

Definition lift {A} (r : result A) : M A :=
  match r with
  | Ok a => ret a
  | Raise e => raise e
  end.

Definition gets {A} (f : state → A) : M A := λ s, (Ok (f s), s).

Definition modify (f : state → state) : M unit := λ s, (Ok tt, f s).

(** a file-system call that changes the tree or raises *)
Definition fs_update (f : gmap (list string) node → result (gmap (list string) node))
    : M unit :=
  λ s, match f (fs s) with
       | Ok fs' => (Ok tt, with_fs fs' s)
       | Raise e => (Raise e, s)
       end.

(** [for x in l: body(x)] *)
Fixpoint for_each {A} (l : list A) (body : A → M unit) : M unit :=
  match l with
  | [] => ret tt
  | x :: r => body x ;;; for_each r body
  end.

(** a loop that also carries a local variable *)
Fixpoint for_fold {A B} (l : list A) (b : B) (body : B → A → M B) : M B :=
  match l with
  | [] => ret b
  | x :: r => b' <- body b x ;; for_fold r b' body
  end.

(** reading [self.temp_dir] where a [Path] is required: [None / member]
    is a [TypeError]. *)
Definition the_temp_dir : M Path :=
  d <- gets (λ s, temp_dir (self s)) ;;
  match d with
  | Some p => ret p
  | None => raise TypeError
  end.

(** ** [ArchiveMerger]: the methods *)

(** [ArchiveMerger(output_path, compression_level)] *)
Definition init (output_path : Path) (compression_level : Z) : ArchiveMerger :=
  {| output_path := output_path; compression_level := compression_level;
     temp_dir := None; extracted_files := [];
     total_files := 0; processed_files := 0 |}.

(** [__enter__]: [tempfile.mkdtemp] makes a new directory; [fresh] is the
    path it settles on. *)
Definition enter (fresh : Path) : M unit :=
  fs_update (λ f, FS.os_mkdir f fresh) ;;;
  modify (with_self (set_temp_dir (Some fresh))).

(** [__exit__]; it returns [None], so an exception of the body goes on. *)
Definition exit_ : M unit :=
  d <- gets (λ s, temp_dir (self s)) ;;
  match d with
  | Some p =>
      ex <- gets (λ s, FS.exists_ (fs s) p) ;;
      if ex then modify (λ s, with_fs (FS.rmtree (fs s) p) s) else ret tt
  | None => ret tt
  end.

(** [with ArchiveMerger(..) as merger: body] *)
Definition with_merger {A} (fresh : Path) (body : M A) : M A :=
  λ s, match enter fresh s with
       | (Raise e, s1) => (Raise e, s1)
       | (Ok _, s1) =>
           let '(r, s2) := body s1 in
           let '(_, s3) := exit_ s2 in
           (r, s3)
       end.

(** the body of the loop shared by [extract_rar] and [extract_zip]
    (lines 64-69 and 82-87): a name not ending in ["/"] is recorded, its
    parent directories are made and its bytes are copied to
    [temp_dir / name]. *)
Definition extract_entry (es : list entry) (extracted : list string)
    (member : string) : M (list string) :=
  if negb (endswith member "/") then
    let extracted := (extracted ++ [member]) in
    d <- the_temp_dir ;;
    let target_path := PurePath.truediv d member in
    fs_update (λ f, FS.mkdir_parents f (PurePath.parent target_path)) ;;;
    data <- lift (read_member es member) ;;
    fs_update (λ f, FS.write_file f target_path data) ;;;
    ret extracted
  else ret extracted.

(** the [except Exception] of the three extractors logs and re-raises:
    it changes nothing. *)
Definition extract_rar (rar_path : archive) : M (list string) :=
  rf <- lift (open_rar rar_path) ;;
  for_fold (namelist rf) [] (extract_entry rf).

Definition extract_zip (zip_path : archive) : M (list string) :=
  zf <- lift (open_zip zip_path) ;;
  for_fold (namelist zf) [] (extract_entry zf).

(** the body of the loop of [extract_tar] (lines 100-104).
    [tf.extract(member, temp_dir)] writes the member's bytes at
    [os.path.join(temp_dir, member.name)], the location [temp_dir /
    member.name] also names (tarfile's permissive extraction). *)
Definition extract_tarinfo (extracted : list string) (member : tarinfo)
    : M (list string) :=
  if isfile member then
    let extracted := (extracted ++ [tname member]) in
    d <- the_temp_dir ;;
    let target_path := PurePath.truediv d (tname member) in
    fs_update (λ f, FS.mkdir_parents f (PurePath.parent target_path)) ;;;
    fs_update (λ f, FS.write_file f target_path (tdata member)) ;;;
    ret extracted
  else ret extracted.

Definition extract_tar (tar_path : archive) : M (list string) :=
  tf <- lift (open_tar tar_path) ;;
  for_fold tf [] extract_tarinfo.

(** [zf.write(file_path, relative_path)] / [tf.add(file_path,
    arcname=relative_path)] for one recorded path *)
Definition add_member (file_path : Path) : M unit :=
  d <- the_temp_dir ;;
  relative_path <-
    match PurePath.relative_to file_path d with
    | Some r => ret r
    | None => raise not_in_subpath
    end ;;
  n <- (λ s, lift (FS.stat (fs s) file_path) s) ;;
  modify (λ s,
    match out_file s with
    | Some o =>
        with_out (Some {| format := format o;
                          members := (members o ++
                            [{| arcname := relative_path; source := n |}]) |}) s
    | None => s
    end).

(** the body of [with ... as zf/tf:] in [create_output_archive]: opening
    for writing creates or truncates the output, then every recorded
    path, in sorted order, is added under its path relative to
    [temp_dir]. *)
Definition write_sorted (fmt : container_format) : M unit :=
  modify (with_out (Some {| format := fmt; members := [] |})) ;;;
  files <- gets (λ s, extracted_files (self s)) ;;
  for_each (sorted files) add_member.

Definition create_output_archive (archive_type compression : string) : M unit :=
  if String.eqb archive_type "zip" then
    level <- gets (λ s, compression_level (self s)) ;;
    write_sorted (ZipDeflated level)
  else if String.eqb archive_type "tar" then
    write_sorted (TarMode (if String.eqb compression "gzip" then "w:gz" else "w"))
  else if String.eqb archive_type "tar.gz" then
    write_sorted (TarMode "w:gz")
  else if String.eqb archive_type "tar.bz2" then
    write_sorted (TarMode "w:bz2")
  else ret tt.

Definition tar_suffixes : list string :=
  [".tar"; ".tgz"; ".tar.gz"; ".tbz2"; ".tar.bz2"].

(** [x in l] on a list of [str] *)
Definition str_in (x : string) (l : list string) : bool :=
  existsb (String.eqb x) l.

(** lines 150-159: one input's share of [total_files] *)
Definition probe (archive_path : archive) : M nat :=
  let ext := lower (PurePath.suffix (apath archive_path)) in
  if String.eqb ext ".rar" then
    rf <- lift (open_rar archive_path) ;;
    ret (length (List.filter (λ m, negb (endswith m "/")) (namelist rf)))
  else if String.eqb ext ".zip" then
    zf <- lift (open_zip archive_path) ;;
    ret (length (List.filter (λ m, negb (endswith m "/")) (namelist zf)))
  else if str_in ext tar_suffixes then
    tf <- lift (open_tar archive_path) ;;
    ret (length (List.filter isfile tf))
  else ret 0.

(** lines 166-174: the extractor chosen by the extension *)
Definition extract_by_suffix (archive_path : archive) : M (list string) :=
  let ext := lower (PurePath.suffix (apath archive_path)) in
  if String.eqb ext ".rar" then extract_rar archive_path
  else if String.eqb ext ".zip" then extract_zip archive_path
  else if str_in ext tar_suffixes then extract_tar archive_path
  else raise (ValueError ("Unsupported archive format: " ++ ext)%string).

(** lines 178-180: a name whose file exists becomes a record *)
Definition record_one (fname : string) : M unit :=
  d <- the_temp_dir ;;
  let full_path := PurePath.truediv d fname in
  ex <- gets (λ s, FS.exists_ (fs s) full_path) ;;
  if ex then
    modify (with_self (λ m,
      set_extracted_files (extracted_files m ++ [full_path]) m))
  else ret tt.

Definition record_extracted (extracted : list string) : M unit :=
  for_each extracted record_one.

(** the returned dict. [elapsed_seconds] is a wall-clock reading and
    [output_size_bytes] the size the codec produced: the model has no
    value for either; the [stat()] that reads the size is kept, since it
    raises when there is no output file. *)
Record merge_result := {
  success : bool;
  output_file : Path;
  total_input_files : nat;
  total_extracted_files : nat
}.

(** lines 149-159: the probing loop *)
Definition probe_add (total_files : nat) (archive_path : archive) : M nat :=
  n <- probe archive_path ;; ret (total_files + n).

Definition probe_all (archive_paths : list archive) : M nat :=
  for_fold archive_paths 0 probe_add.

(** lines 166-184: one round of the extraction loop *)
Definition extract_one (archive_path : archive) : M unit :=
  extracted <- extract_by_suffix archive_path ;;
  record_extracted extracted ;;;
  modify (with_self (λ m,
    set_processed_files (processed_files m + length extracted) m)).

Definition extract_all (archive_paths : list archive) : M unit :=
  for_each archive_paths extract_one.

Definition process_archives (archive_paths : list archive)
    (output_type compression : string) : M merge_result :=
  modify (with_self (set_extracted_files [])) ;;;
  total_files <- probe_all archive_paths ;;
  modify (with_self (set_total_files total_files)) ;;;
  modify (with_self (set_processed_files 0)) ;;;
  extract_all archive_paths ;;;
  create_output_archive output_type compression ;;;
  out <- gets out_file ;;
  match out with
  | None => raise (OSError ENOENT)
  | Some _ =>
      m <- gets self ;;
      ret {| success := true;
             output_file := output_path m;
             total_input_files := length archive_paths;
             total_extracted_files := length (extracted_files m) |}
  end.

(** the merge as both callers run it (lines 425-433 and 529-534) *)
Definition merge (output_path : Path) (level : Z) (fresh : Path)
    (archive_paths : list archive) (output_type compression : string)
    (f : gmap (list string) node) (out : option out_archive)
    : result merge_result * state :=
  with_merger fresh (process_archives archive_paths output_type compression)
    {| self := init output_path level; fs := f; out_file := out |}.

(** ** The callers: [cli_mode] *)

(** [Path(f).exists()] for an input: something is stored at its path. *)
Definition path_exists (a : archive) : bool :=
  match stored a with
  | Missing => false
  | _ => true
  end.

(** the namespace [parser.parse_args()] returns; each input is
    [Path(f)] with the file found there *)
Record cli_args := {
  arg_inputs : list archive;
  arg_output : Path;
  arg_format : string;
  arg_compression : string;
  arg_level : Z;
  arg_verbose : bool
}.

(** lines 518-521: the input at which the existence check exits *)
Fixpoint first_missing (inputs : list archive) : option archive :=
  match inputs with
  | [] => None
  | f :: r => if negb (path_exists f) then Some f else first_missing r
  end.

(** how the process ends: its exit status, the tree and the file at the
    output path *)
Record process_end := {
  exit_status : Z;
  tree_at_exit : gmap (list string) node;
  out_at_exit : option out_archive
}.

(** [cli_mode] from line 517 on, for parsed arguments. [sys.exit(1)]
    ends the process with status 1, and so does an exception nothing
    catches (the [mkdir] of line 525); falling off the end gives status
    0. What is printed is left out, and with it [--verbose]. *)
Definition cli_mode (args : cli_args) (fresh : Path)
    (f : gmap (list string) node) (out : option out_archive) : process_end :=
  match first_missing (arg_inputs args) with
  | Some _ => {| exit_status := 1; tree_at_exit := f; out_at_exit := out |}
  | None =>
      match FS.mkdir_parents f (PurePath.parent (arg_output args)) with
      | Raise _ => {| exit_status := 1; tree_at_exit := f; out_at_exit := out |}
      | Ok f1 =>
          let '(r, s) :=
            merge (arg_output args) (arg_level args) fresh (arg_inputs args)
              (arg_format args) (arg_compression args) f1 out in
          {| exit_status := match r with Ok _ => 0 | Raise _ => 1 end;
             tree_at_exit := fs s; out_at_exit := out_file s |}
      end
  end%Z.

(** line 513, [args = parser.parse_args()]: argparse ends the process
    itself (status 0 after printing the help for [-h], status 2 after an
    error in the command line) or returns the namespace *)
Inductive parse_result :=
| ParseExit (status : Z)
| Parsed (args : cli_args).

(** [cli_mode] as a whole, for what [parse_args] does with the command
    line *)
Definition cli_process (p : parse_result) (fresh : Path)
    (f : gmap (list string) node) (out : option out_archive) : process_end :=
  match p with
  | ParseExit status =>
      {| exit_status := status; tree_at_exit := f; out_at_exit := out |}
  | Parsed args => cli_mode args fresh f out
  end.

(** ** The callers: the file list of [ArchiveMasterGUI] *)

(** the text of the status bar *)
Inductive status_text :=
| StatusReady                       (* "Ready" *)
| StatusAdded (name : string)       (* f"Added {path.name}" *)
| StatusRemoved (count : nat)       (* f"Removed {n} file(s)" *)
| StatusCleared.                    (* "Cleared all files" *)

(** the part of the window the three list methods work on:
    [archive_files] (each [Path] with the file found there), the rows of
    [file_listbox] and the status bar *)
Record gui := {
  archive_files : list archive;
  file_listbox : list string;
  status_bar : status_text
}.

(** [__init__] and [setup_ui]: nothing listed *)
Definition gui_init : gui :=
  {| archive_files := []; file_listbox := []; status_bar := StatusReady |}.

Definition accepted_suffixes : list string :=
  [".zip"; ".rar"; ".tar"; ".tgz"; ".tar.gz"; ".tbz2"; ".tar.bz2"].

(** [path in self.archive_files]: paths are equal when their parts are *)
Definition path_in (path : archive) (l : list archive) : bool :=
  existsb (λ q, bool_decide (apath q = apath path)) l.

(** lines 332-337: one round of the loop of [add_files] *)
Definition add_file (g : gui) (path : archive) : gui :=
  if path_exists path &&
     str_in (lower (PurePath.suffix (apath path))) accepted_suffixes
  then
    if negb (path_in path (archive_files g)) then
      {| archive_files := archive_files g ++ [path];
         file_listbox := file_listbox g ++ [PurePath.name (apath path)];
         status_bar := StatusAdded (PurePath.name (apath path)) |}
    else g
  else g.

(** [add_files], for the [files] the dialog returned *)
Definition add_files (files : list archive) (g : gui) : gui :=
  fold_left add_file files g.

(** lines 345-346: [file_listbox.delete(idx)], which ignores a row that
    is not there, then [archive_files.pop(idx)], which raises
    [IndexError] ([None]) for one *)
Definition pop_row (idx : nat) (g : gui) : option gui :=
  if (idx <? length (archive_files g))%nat then
    Some {| archive_files := delete idx (archive_files g);
            file_listbox := delete idx (file_listbox g);
            status_bar := status_bar g |}
  else None.

Fixpoint pop_rows (idxs : list nat) (g : gui) : option gui :=
  match idxs with
  | [] => Some g
  | idx :: r =>
      match pop_row idx g with
      | Some g1 => pop_rows r g1
      | None => None
      end
  end.

(** [remove_selected], for the indices [curselection()] returned *)
Definition remove_selected (selected_indices : list nat) (g : gui) : option gui :=
  match selected_indices with
  | [] => Some g
  | _ =>
      match pop_rows (reverse selected_indices) g with
      | Some g1 =>
          Some {| archive_files := archive_files g1;
                  file_listbox := file_listbox g1;
                  status_bar := StatusRemoved (length selected_indices) |}
      | None => None
      end
  end.

Definition clear_all (g : gui) : gui :=
  {| archive_files := []; file_listbox := []; status_bar := StatusCleared |}.

(** ** The inputs of the spec's example scenario *)

Module Scenario.
Definition tmp : gmap (list string) node := {[ ["tmp"] := Dir ]}.
Definition root : Path := ["/"; "tmp"; "archivemaster_k3"].
Definition out : Path := ["/"; "home"; "u"; "merged.zip"].
Definition a_zip : archive :=
  {| apath := PurePath.parse "a.zip";
     stored := ZipC [ {| ename := "x.txt"; edata := "1" |} ] |}.
Definition b_tar_gz : archive :=
  {| apath := PurePath.parse "b.tar.gz";
     stored := TarC [ {| tname := "x.txt"; ttype := REGTYPE; tdata := "2" |};
                      {| tname := "y.txt"; ttype := REGTYPE; tdata := "3" |} ] |}.
(** the same archive under a name the program dispatches *)
Definition b_tgz : archive :=
  {| apath := PurePath.parse "b.tgz"; stored := stored b_tar_gz |}.
Definition b_zip : archive :=
  {| apath := PurePath.parse "b.zip";
     stored := ZipC [ {| ename := "x.txt"; edata := "2" |} ] |}.

(** archives with a member name that climbs out and an absolute one *)
Definition evil_entries : list entry :=
  [ {| ename := "../evil.txt"; edata := "x" |};
    {| ename := "/etc/cron.d/job"; edata := "y" |} ].
Definition evil_zip : archive :=
  {| apath := PurePath.parse "e.zip"; stored := ZipC evil_entries |}.
Definition evil_rar : archive :=
  {| apath := PurePath.parse "e.rar"; stored := RarC evil_entries |}.

(** the state [__enter__] leaves *)
Definition entered : state :=
  {| self := set_temp_dir (Some root) (init out 6);
     fs := <[ ["tmp"; "archivemaster_k3"] := Dir ]> tmp;
     out_file := None |}.

(** a tree in which [x.txt] is under the root and [ghost.txt] is not *)
Definition with_x : state :=
  {| self := set_temp_dir (Some root) (init out 6);
     fs := <[ ["tmp"; "archivemaster_k3"; "x.txt"] := File "1" ]> (fs entered);
     out_file := None |}.

Definition run (ins : list archive) : result merge_result * state :=
  merge out 6 root ins "zip" "deflate" tmp None.


Definition result_tgz : merge_result :=
  {| success := true; output_file := out;
     total_input_files := 2; total_extracted_files := 3 |}.
Definition merged_tgz : out_archive :=
  {| format := ZipDeflated 6;
     members := [ {| arcname := ["x.txt"]; source := File "2" |};
                  {| arcname := ["x.txt"]; source := File "2" |};
                  {| arcname := ["y.txt"]; source := File "3" |} ] |}.
End Scenario.

(** ** More inputs, for the edge cases *)

Module Cases.
(** a zip that holds directory entries only *)
Definition dirs_zip : archive :=
  {| apath := PurePath.parse "d.zip";
     stored := ZipC [ {| ename := "docs/"; edata := "" |};
                      {| ename := "docs/img/"; edata := "" |} ] |}.

(** a tar that holds a directory and a symbolic link *)
Definition links_tar : archive :=
  {| apath := PurePath.parse "l.tar";
     stored := TarC [ {| tname := "docs"; ttype := DIRTYPE; tdata := "" |};
                      {| tname := "docs/latest"; ttype := SYMTYPE; tdata := "" |} ] |}.

(** a file named as a zip that is not one *)
Definition junk_zip : archive :=
  {| apath := PurePath.parse "j.zip"; stored := Junk |}.


(** an input path with nothing stored there *)
Definition gone_zip : archive :=
  {| apath := PurePath.parse "gone.zip"; stored := Missing |}.

(** a merger that was made but never entered *)
Definition unentered : state :=
  {| self := init Scenario.out 6; fs := Scenario.tmp; out_file := None |}.

(** a merger whose output path holds an older archive *)
Definition old_output : out_archive :=
  {| format := TarMode "w"; members := [] |}.
Definition entered_over_old : state :=
  {| self := self Scenario.entered; fs := fs Scenario.entered;
     out_file := Some old_output |}.
(** command lines: two zips; one with an input that is not there; one
    with the [*.tar.gz] of the example *)
Definition cli_zips : cli_args :=
  {| arg_inputs := [Scenario.a_zip; Scenario.b_zip]; arg_output := Scenario.out;
     arg_format := "zip"; arg_compression := "deflate"; arg_level := 6;
     arg_verbose := false |}.
Definition cli_gone : cli_args :=
  {| arg_inputs := [Scenario.a_zip; gone_zip]; arg_output := Scenario.out;
     arg_format := "zip"; arg_compression := "deflate"; arg_level := 6;
     arg_verbose := false |}.
Definition cli_tar_gz : cli_args :=
  {| arg_inputs := [Scenario.a_zip; Scenario.b_tar_gz]; arg_output := Scenario.out;
     arg_format := "zip"; arg_compression := "deflate"; arg_level := 6;
     arg_verbose := false |}.
(** a window with three files listed *)
Definition three_listed : gui :=
  add_files [Scenario.a_zip; Scenario.b_zip; Scenario.b_tgz] gui_init.
(** a window that lists a file named as a zip that is not one *)
Definition junk_listed : gui := add_files [Scenario.a_zip; junk_zip] gui_init.
(** a tree in which the directory of the output, [/home/u], exists, and
    the state [__enter__] leaves in it *)
Definition home_tree : gmap (list string) node :=
  {[ ["tmp"] := Dir; ["home"] := Dir; ["home"; "u"] := Dir ]}.
Definition home_entered : state :=
  {| self := set_temp_dir (Some Scenario.root) (init Scenario.out 6);
     fs := <[ ["tmp"; "archivemaster_k3"] := Dir ]> home_tree;
     out_file := None |}.



End Cases.

(** ** Vocabulary of the statements *)

Definition same_kind (n n' : node) : Prop :=
  match n, n' with
  | Dir, Dir => True
  | File _, File _ => True
  | _, _ => False
  end.

(** every node of [f] is still there in [f'], with its kind *)
Definition fs_le (f f' : gmap (list string) node) : Prop :=
  ∀ k n, f !! k = Some n → ∃ n', f' !! k = Some n' ∧ same_kind n n'.

(** what a method may do to the state: the tree only grows or has file
    contents replaced, and the merger keeps its extraction root *)
Definition grows (s s' : state) : Prop :=
  fs_le (fs s) (fs s') ∧ temp_dir (self s') = temp_dir (self s).

(** a computation that leaves the file system alone *)
Definition same_fs (s s' : state) : Prop := fs s' = fs s.

(** a state differs from another in its tree only *)
Definition only_fs (s s' : state) : Prop :=
  self s' = self s ∧ out_file s' = out_file s.

(** what the merger keeps through the extraction loop *)
Definition same_setup (s s' : state) : Prop :=
  temp_dir (self s') = temp_dir (self s) ∧
  output_path (self s') = output_path (self s) ∧
  compression_level (self s') = compression_level (self s) ∧
  out_file s' = out_file s.

(** the merger object is as it was *)
Definition same_self (s s' : state) : Prop := self s' = self s.

(** nothing moved *)
Definition unchanged (s s' : state) : Prop := s' = s.

(** the output file is a container opened as [fmt] *)
Definition has_format (fmt : container_format) (s : state) : Prop :=
  ∃ ms, out_file s = Some {| format := fmt; members := ms |}.

Definition format_kept (fmt : container_format) (s s' : state) : Prop :=
  has_format fmt s → has_format fmt s'.

(** an extension [process_archives] has an extractor for *)
Definition recognised (ext : string) : Prop :=
  ext = ".rar" ∨ ext = ".zip" ∨ str_in ext tar_suffixes = true.

(** the suffix as computed on the name of a path *)
Definition name_suffix (nm : string) : string :=
  let i := rfind "." nm in
  if ((0 <? i) && (i <? Z.of_nat (String.length nm) - 1))%Z
  then slice_from (Z.to_nat i) nm
  else "".

(** every run of [m], returning or raising, relates its two states by [R] *)
Definition keeps (R : state → state → Prop) {A} (m : M A) : Prop :=
  ∀ s r s', m s = (r, s') → R s s'.

(** where a path leads when every directory on the way exists *)
Fixpoint lex_walk (cur : list string) (comps : Path) : list string :=
  match comps with
  | [] => cur
  | c :: rest =>
      if PurePath.is_root c then lex_walk [] rest
      else if String.eqb c ".." then lex_walk (removelast cur) rest
      else lex_walk (cur ++ [c]) rest
  end.

Definition location (p : Path) : list string := lex_walk [] p.

Definition not_dir_name (m : string) : bool := negb (endswith m "/").

(** the names an extractor returns for an input it can read *)
Definition file_names (a : archive) : list string :=
  match stored a with
  | ZipC es | RarC es => List.filter not_dir_name (namelist es)
  | TarC ms => map tname (List.filter isfile ms)
  | _ => []
  end.

Definition data_of (es : list entry) (m : string) : string :=
  match read_member es m with
  | Ok d => d
  | Raise _ => ""
  end.

(** the writes an extractor performs, in order: name and bytes *)
Definition writes (a : archive) : list (string * string) :=
  match stored a with
  | ZipC es | RarC es =>
      map (λ m, (m, data_of es m)) (List.filter not_dir_name (namelist es))
  | TarC ms => map (λ m, (tname m, tdata m)) (List.filter isfile ms)
  | _ => []
  end.

(** one write of an extractor, on the tree alone: the parents of
    [d / n] are made, then the bytes go to [d / n] *)
Definition store_step (d : Path) (n c : string)
    (f f' : gmap (list string) node) : Prop :=
  ∃ f1, FS.mkdir_parents f (PurePath.parent (PurePath.truediv d n)) = Ok f1 ∧
        FS.write_file f1 (PurePath.truediv d n) c = Ok f'.

Fixpoint run_writes (d : Path) (ws : list (string * string))
    (f f' : gmap (list string) node) : Prop :=
  match ws with
  | [] => f' = f
  | (n, c) :: r => ∃ f1, store_step d n c f f1 ∧ run_writes d r f1 f'
  end.



(** the members [write_sorted] adds for the recorded paths *)
Fixpoint manifest (d : Path) (f : gmap (list string) node) (files : list Path)
    : result (list out_member) :=
  match files with
  | [] => Ok []
  | p :: rest =>
      match PurePath.relative_to p d with
      | None => Raise not_in_subpath
      | Some r =>
          match FS.stat f p with
          | Raise e => Raise e
          | Ok n =>
              match manifest d f rest with
              | Ok ms => Ok ({| arcname := r; source := n |} :: ms)
              | Raise e => Raise e
              end
          end
      end
  end.

Definition supported_output (t : string) : Prop :=
  t = "zip" ∨ t = "tar" ∨ t = "tar.gz" ∨ t = "tar.bz2".

(** under the extraction root, the root included *)
Definition under (l k : list string) : Prop := l `prefix_of` k.

(** an input the program can dispatch and open *)
Definition readable (a : archive) : Prop :=
  let ext := lower (PurePath.suffix (apath a)) in
  (ext = ".rar" ∧ ∃ es, stored a = RarC es) ∨
  (ext = ".zip" ∧ ∃ es, stored a = ZipC es) ∨
  (str_in ext tar_suffixes = true ∧ ∃ ms, stored a = TarC ms).

(** the file at [output_path] is as it was *)
Definition same_out (s s' : state) : Prop := out_file s' = out_file s.




(** a part that leads one step down: no anchor and not [".."] *)
Definition plain_part (c : string) : bool :=
  negb (PurePath.is_root c) && negb (String.eqb c "..").

(** a member name that names something below the directory it is joined
    to: relative, without [".."], and not empty *)
Definition plain_name (n : string) : bool :=
  match PurePath.parse n with
  | [] => false
  | p => forallb plain_part p
  end.

(** no input can write over the output: every member name is plain, so
    every target is below the extraction root, and the output path is
    not. (The state keeps the output file apart from the tree; this is
    when the two cannot meet.) *)
Definition clear_of_output (root output : Path) (ins : list archive) : Prop :=
  Forall (λ n, plain_name n = true) (flat_map file_names ins) ∧
  ¬ under (location root) (location output).

(** the two trees agree outside the directory at [l] *)
Definition outside_same (l : list string) (f f' : gmap (list string) node) : Prop :=
  ∀ k, ¬ under l k → f' !! k = f !! k.

(** what extraction keeps for a merger whose root [d] is the directory
    at [l]: the tree only grows, and outside the root it is as it was *)
Definition contained (d : Path) (l : list string) (s s' : state) : Prop :=
  grows s s' ∧
  (temp_dir (self s) = Some d → FS.dir_location (fs s) d = Some l →
   outside_same l (fs s) (fs s')).


(** the rows of the listbox are the names of the listed files, in order *)
Definition listbox_mirrors (g : gui) : Prop :=
  file_listbox g = map (λ a, PurePath.name (apath a)) (archive_files g).

(** the rows of [l], numbered from [k], whose number is not selected *)
Fixpoint rows_kept {A} (sel : list nat) (k : nat) (l : list A) : list A :=
  match l with
  | [] => []
  | x :: r =>
      if bool_decide (k ∈ sel) then rows_kept sel (S k) r
      else x :: rows_kept sel (S k) r
  end.

(** the windows the three list methods lead to from the start *)
Inductive gui_reachable : gui → Prop :=
| reach_init : gui_reachable gui_init
| reach_add files g : gui_reachable g → gui_reachable (add_files files g)
| reach_remove sel g g' :
    gui_reachable g → remove_selected sel g = Some g' → gui_reachable g'
| reach_clear g : gui_reachable g → gui_reachable (clear_all g).

(** a file [add_files] lets in *)
Definition listed_ok (a : archive) : Prop :=
  path_exists a = true ∧ recognised (lower (PurePath.suffix (apath a))).

(** what the list methods keep *)
Definition list_inv (g : gui) : Prop :=
  listbox_mirrors g ∧ NoDup (map apath (archive_files g)) ∧
  Forall listed_ok (archive_files g).

(** ** Tactics for the monad *)

Ltac unfold_m :=
  unfold bind, ret, raise, lift, gets, modify, fs_update in *.

(** * Checks on concrete inputs *)

Example parse_abs : PurePath.parse "/tmp//am/./x.txt" = ["/"; "tmp"; "am"; "x.txt"].
Proof. reflexivity. Qed.
Example parse_dotdot : PurePath.parse "../a/b.txt" = [".."; "a"; "b.txt"].
Proof. reflexivity. Qed.
Example suffix_targz : PurePath.suffix (PurePath.parse "dir/b.TAR.GZ") = ".GZ".
Proof. reflexivity. Qed.
Example suffix_hidden : PurePath.suffix (PurePath.parse ".bashrc") = "".
Proof. reflexivity. Qed.
Example lower_upper : lower "B.Tar.GZ" = "b.tar.gz".
Proof. reflexivity. Qed.

(** paths sort part by part: [a/b] comes before [a.txt], although the
    string ["a.txt"] is below the string ["a/b"] *)
Example sorted_ex :
  sorted [["/";"t";"a.txt"]; ["/";"t";"a";"b"]] = [["/";"t";"a";"b"]; ["/";"t";"a.txt"]].
Proof. reflexivity. Qed.
Example str_order_ex : str_ltb "a.txt" "a/b" = true.
Proof. reflexivity. Qed.

(** a file in the way of a directory: the second member cannot be made *)
Example file_in_the_way :
  (extract_zip {| apath := PurePath.parse "c.zip";
                  stored := ZipC [ {| ename := "x"; edata := "1" |};
                                   {| ename := "x/y"; edata := "2" |} ] |}
     Scenario.entered).1 = Raise (OSError EEXIST).
Proof. vm_compute. reflexivity. Qed.

(** a duplicated name is extracted twice, each time with the bytes of
    its last entry *)
Example duplicate_name :
  (extract_zip {| apath := PurePath.parse "c.zip";
                  stored := ZipC [ {| ename := "x"; edata := "1" |};
                                   {| ename := "x"; edata := "2" |} ] |}
     Scenario.entered).1 = Ok ["x"; "x"] ∧
  writes {| apath := PurePath.parse "c.zip";
            stored := ZipC [ {| ename := "x"; edata := "1" |};
                             {| ename := "x"; edata := "2" |} ] |} =
    [("x", "2"); ("x", "2")].
Proof. split; vm_compute; reflexivity. Qed.

(** an output type outside the four writes nothing; the [stat()] of the
    missing output raises *)
Example unknown_output_type :
  (merge Scenario.out 6 Scenario.root [Scenario.a_zip] "rar" "deflate"
     Scenario.tmp None).1 = Raise (OSError ENOENT).
Proof. vm_compute. reflexivity. Qed.


(** * The monad *)

Lemma bind_Ok {A B} (m : M A) (k : A → M B) s b s' :
  bind m k s = (Ok b, s') → ∃ a s1, m s = (Ok a, s1) ∧ k a s1 = (Ok b, s').
Proof.
  unfold bind. destruct (m s) as [[a|e] s1]; [eauto | discriminate].
Qed.

Lemma bind_Raise {A B} (m : M A) (k : A → M B) s e s' :
  bind m k s = (Raise e, s') →
  m s = (Raise e, s') ∨ ∃ a s1, m s = (Ok a, s1) ∧ k a s1 = (Raise e, s').
Proof.
  unfold bind. destruct (m s) as [[a|e0] s1]; [eauto | ].
  intros [= -> ->]. by left.
Qed.

Lemma bind_any {A B} (m : M A) (k : A → M B) s r s' :
  bind m k s = (r, s') →
  (∃ e, r = Raise e ∧ m s = (Raise e, s')) ∨ ∃ a s1, m s = (Ok a, s1) ∧ k a s1 = (r, s').
Proof.
  unfold bind. destruct (m s) as [[a|e0] s1]; [eauto | ].
  intros [= <- <-]. left. eauto.
Qed.

Lemma lift_Ok {A} (x : result A) s a s' :
  lift x s = (Ok a, s') → x = Ok a ∧ s' = s.
Proof. destruct x; cbn; intros [= ]; subst; auto. Qed.

Lemma lift_any {A} (x : result A) s r s' :
  lift x s = (r, s') → x = r ∧ s' = s.
Proof. destruct x; cbn; intros [= ]; subst; auto. Qed.

(** * The file system *)

Lemma same_kind_refl n : same_kind n n.
Proof. by destruct n. Qed.

Lemma same_kind_trans n1 n2 n3 : same_kind n1 n2 → same_kind n2 n3 → same_kind n1 n3.
Proof. by destruct n1, n2, n3. Qed.

Lemma fs_le_refl f : fs_le f f.
Proof. intros k n H. eauto using same_kind_refl. Qed.

Lemma fs_le_trans f1 f2 f3 : fs_le f1 f2 → fs_le f2 f3 → fs_le f1 f3.
Proof.
  intros H12 H23 k n H. apply H12 in H as (n2 & H & K).
  apply H23 in H as (n3 & H & K'). eauto using same_kind_trans.
Qed.

Lemma fs_le_insert f k n :
  (∀ n0, f !! k = Some n0 → same_kind n0 n) → fs_le f (<[k:=n]> f).
Proof.
  intros H j m Hj. destruct (decide (k = j)) as [->|Hne].
  - rewrite lookup_insert_eq. eauto.
  - rewrite lookup_insert_ne by done. eauto using same_kind_refl.
Qed.

Lemma node_at_snoc f cur c : FS.node_at f (cur ++ [c]) = f !! (cur ++ [c]).
Proof. unfold FS.node_at. by destruct cur. Qed.

Lemma node_at_le f f' l n :
  fs_le f f' → FS.node_at f l = Some n →
  ∃ n', FS.node_at f' l = Some n' ∧ same_kind n n'.
Proof.
  intros Hle. destruct l; cbn; [intros [= <-]; by exists Dir | apply Hle].
Qed.

Lemma walk_le f f' cur p l :
  fs_le f f' → FS.walk f cur p = Ok l → FS.walk f' cur p = Ok l.
Proof.
  intros Hle. revert cur. induction p as [|c p IH]; intros cur; cbn; [done|].
  destruct (PurePath.is_root c); [apply IH|].
  destruct (String.eqb c ".."); [apply IH|].
  destruct (FS.node_at f (cur ++ [c])) as [[|d]|] eqn:E; try discriminate.
  apply (node_at_le _ _ _ _ Hle) in E as (n' & -> & K).
  destruct n'; [apply IH | done].
Qed.

Lemma walk_lex f cur p l : FS.walk f cur p = Ok l → l = lex_walk cur p.
Proof.
  revert cur. induction p as [|c p IH]; intros cur; cbn; [congruence|].
  destruct (PurePath.is_root c); [apply IH|].
  destruct (String.eqb c ".."); [apply IH|].
  destruct (FS.node_at f (cur ++ [c])) as [[|d]|]; try discriminate. apply IH.
Qed.

Lemma lex_walk_app cur p q : lex_walk cur (p ++ q) = lex_walk (lex_walk cur p) q.
Proof.
  revert cur. induction p as [|c p IH]; intros cur; cbn; [done|].
  destruct (PurePath.is_root c); [apply IH|].
  destruct (String.eqb c ".."); apply IH.
Qed.

Lemma split_last_Some p d c : FS.split_last p = Some (d, c) → p = (d ++ [c]).
Proof.
  destruct p as [|x p]; [done|]. unfold FS.split_last. intros H.
  assert (d = removelast (x :: p) ∧ c = List.last (x :: p) "") as [-> ->]
    by (by injection H).
  by apply app_removelast_last.
Qed.

Lemma location_split p d c :
  FS.split_last p = Some (d, c) → FS.names_dir c = false →
  location p = (lex_walk [] d ++ [c]).
Proof.
  intros H Hc. apply split_last_Some in H as ->. unfold location.
  rewrite lex_walk_app. cbn. unfold FS.names_dir in Hc.
  apply orb_false_elim in Hc as [-> ->]. done.
Qed.

Lemma stat_le f f' p n :
  fs_le f f' → FS.stat f p = Ok n → ∃ n', FS.stat f' p = Ok n' ∧ same_kind n n'.
Proof.
  intros Hle. unfold FS.stat. destruct (FS.split_last p) as [[d c]|].
  2:{ intros [= <-]. by exists Dir. }
  destruct (FS.walk f [] d) as [cur|e] eqn:W; [|done].
  rewrite (walk_le _ _ _ _ _ Hle W).
  destruct (FS.names_dir c). { intros [= <-]. by exists Dir. }
  destruct (FS.node_at f (cur ++ [c])) as [m|] eqn:E; [|done].
  intros [= <-]. apply (node_at_le _ _ _ _ Hle) in E as (n' & -> & K). eauto.
Qed.

Lemma exists_le f f' p : fs_le f f' → FS.exists_ f p = true → FS.exists_ f' p = true.
Proof.
  intros Hle. unfold FS.exists_. destruct (FS.stat f p) as [n|] eqn:E; [|done].
  apply (stat_le _ _ _ _ Hle) in E as (n' & -> & _). done.
Qed.

Lemma stat_file_location f p data :
  FS.stat f p = Ok (File data) → f !! location p = Some (File data).
Proof.
  unfold FS.stat. destruct (FS.split_last p) as [[d c]|] eqn:S; [|done].
  destruct (FS.walk f [] d) as [cur|e] eqn:W; [|done].
  destruct (FS.names_dir c) eqn:Hc; [done|].
  rewrite (location_split _ _ _ S Hc), <- (walk_lex _ _ _ _ W), node_at_snoc.
  destruct (f !! (cur ++ [c])); [congruence | done].
Qed.

Lemma fs_le_subseteq (f f' : gmap (list string) node) : f ⊆ f' → fs_le f f'.
Proof.
  intros H k n Hk. exists n. split; [|apply same_kind_refl].
  by eapply lookup_weaken.
Qed.

(** making directories only adds nodes *)
Lemma os_mkdir_sub f p f' : FS.os_mkdir f p = Ok f' → f ⊆ f'.
Proof.
  unfold FS.os_mkdir. destruct (FS.split_last p) as [[d c]|]; [|done].
  destruct (FS.walk f [] d) as [cur|e]; [|done].
  destruct (FS.names_dir c); [done|]. rewrite node_at_snoc.
  destruct (f !! (cur ++ [c])) eqn:E; [done|]. intros [= <-].
  by apply insert_subseteq.
Qed.

Lemma mkdir_exist_ok_sub f p f' : FS.mkdir_exist_ok f p = Ok f' → f ⊆ f'.
Proof.
  unfold FS.mkdir_exist_ok. destruct (FS.os_mkdir f p) as [f1|e] eqn:E.
  - intros [= <-]. eauto using os_mkdir_sub.
  - destruct e as [[]| | | | | |]; try done;
      destruct (FS.is_dir f p); by intros [= <-].
Qed.

Lemma mkdir_parents_aux_sub n f p f' : FS.mkdir_parents_aux n f p = Ok f' → f ⊆ f'.
Proof.
  revert f p f'. induction n as [|n IH]; intros f p f'; cbn;
    destruct (FS.os_mkdir f p) as [f1|e] eqn:E;
    try (intros [= <-]; eauto using os_mkdir_sub; fail).
  - destruct e as [[]| | | | | |]; try done;
      destruct (FS.is_dir f p); by intros [= <-].
  - destruct e as [[]| | | | | |]; try done;
      try (destruct (FS.is_dir f p); by intros [= <-]).
    destruct (decide (PurePath.parent p = p)); [done|].
    destruct (FS.mkdir_parents_aux n f (PurePath.parent p)) as [f2|] eqn:E2; [|done].
    intros H. apply IH in E2. apply mkdir_exist_ok_sub in H. by etrans.
Qed.

Lemma mkdir_parents_sub f p f' : FS.mkdir_parents f p = Ok f' → f ⊆ f'.
Proof. apply mkdir_parents_aux_sub. Qed.

Lemma mkdir_parents_le f p f' : FS.mkdir_parents f p = Ok f' → fs_le f f'.
Proof. intros H. apply fs_le_subseteq. eauto using mkdir_parents_sub. Qed.

Lemma os_mkdir_le f p f' : FS.os_mkdir f p = Ok f' → fs_le f f'.
Proof. intros H. apply fs_le_subseteq. eauto using os_mkdir_sub. Qed.

(** a successful write puts the bytes at the path's location and touches
    nothing else; the node replaced, if any, was a file *)
Lemma write_file_spec f p data f' :
  FS.write_file f p data = Ok f' →
  f' = <[location p := File data]> f ∧
  (∀ n, f !! location p = Some n → same_kind n (File data)) ∧
  FS.stat f' p = Ok (File data).
Proof.
  unfold FS.write_file, FS.stat. destruct (FS.split_last p) as [[d c]|] eqn:S; [|done].
  destruct (FS.walk f [] d) as [cur|e] eqn:W; [|done].
  destruct (FS.names_dir c) eqn:Hc; [done|].
  rewrite (location_split _ _ _ S Hc), <- (walk_lex _ _ _ _ W), !node_at_snoc.
  intros H.
  assert (f' = <[(cur ++ [c]):=File data]> f ∧
          ∀ n, f !! (cur ++ [c]) = Some n → same_kind n (File data)) as [-> K].
  { destruct (f !! (cur ++ [c])) as [[|d0]|]; try done;
      injection H as <-; split; try done; intros n [= <-]; done. }
  split; [done|]. split; [done|].
  rewrite (walk_le f _ _ _ _ (fs_le_insert _ _ _ K) W).
  by rewrite node_at_snoc, lookup_insert_eq.
Qed.

Lemma write_file_le f p data f' : FS.write_file f p data = Ok f' → fs_le f f'.
Proof.
  intros H. apply write_file_spec in H as (-> & K & _). by apply fs_le_insert.
Qed.

(** * Relations every run of a method keeps *)

Section Keeps.
Variable R : state → state → Prop.
Hypothesis R_refl : ∀ s, R s s.
Hypothesis R_trans : ∀ s1 s2 s3, R s1 s2 → R s2 s3 → R s1 s3.

Lemma keeps_ret {A} (a : A) : keeps R (ret a).
Proof. intros s r s' [= <- <-]. apply R_refl. Qed.

Lemma keeps_raise {A} e : keeps R (@raise A e).
Proof. intros s r s' [= <- <-]. apply R_refl. Qed.

Lemma keeps_lift {A} (x : result A) : keeps R (lift x).
Proof. destruct x; [apply keeps_ret | apply keeps_raise]. Qed.

Lemma keeps_gets {A} (g : state → A) : keeps R (gets g).
Proof. intros s r s' [= <- <-]. apply R_refl. Qed.

Lemma keeps_modify g : (∀ s, R s (g s)) → keeps R (modify g).
Proof. intros H s r s' [= <- <-]. apply H. Qed.

Lemma keeps_bind {A B} (m : M A) (k : A → M B) :
  keeps R m → (∀ a, keeps R (k a)) → keeps R (bind m k).
Proof.
  intros Hm Hk s r s' H.
  apply bind_any in H as [(e & -> & H) | (a & s1 & H1 & H2)].
  - eapply Hm, H.
  - eapply R_trans; [eapply Hm, H1 | eapply Hk, H2].
Qed.

Lemma keeps_for_each {A} (l : list A) body :
  (∀ x, keeps R (body x)) → keeps R (for_each l body).
Proof.
  intros Hb. induction l as [|x l IH]; cbn.
  - apply keeps_ret.
  - apply keeps_bind; auto.
Qed.

Lemma keeps_for_fold {A B} (l : list A) (b : B) body :
  (∀ b x, keeps R (body b x)) → keeps R (for_fold l b body).
Proof.
  intros Hb. revert b. induction l as [|x l IH]; intros b; cbn.
  - apply keeps_ret.
  - apply keeps_bind; auto.
Qed.

Lemma keeps_the_temp_dir : keeps R the_temp_dir.
Proof.
  apply keeps_bind; [apply keeps_gets|].
  intros [p|]; [apply keeps_ret | apply keeps_raise].
Qed.

Lemma keeps_if {A} (b : bool) (m1 m2 : M A) :
  keeps R m1 → keeps R m2 → keeps R (if b then m1 else m2).
Proof. by destruct b. Qed.

Lemma keeps_stat {A} (g : state → result A) : keeps R (λ s, lift (g s) s).
Proof. intros s r s' H. apply lift_any in H as [_ ->]. apply R_refl. Qed.
End Keeps.

Lemma grows_refl s : grows s s.
Proof. split; [apply fs_le_refl | done]. Qed.

Lemma grows_trans s1 s2 s3 : grows s1 s2 → grows s2 s3 → grows s1 s3.
Proof.
  intros [H1 E1] [H2 E2]. split; [eauto using fs_le_trans | congruence].
Qed.

Lemma same_fs_refl s : same_fs s s.
Proof. done. Qed.

Lemma same_fs_trans s1 s2 s3 : same_fs s1 s2 → same_fs s2 s3 → same_fs s1 s3.
Proof. unfold same_fs. congruence. Qed.

Lemma same_self_refl s : same_self s s.
Proof. done. Qed.

Lemma same_self_trans s1 s2 s3 : same_self s1 s2 → same_self s2 s3 → same_self s1 s3.
Proof. unfold same_self. congruence. Qed.

Lemma unchanged_refl s : unchanged s s.
Proof. done. Qed.

Lemma unchanged_trans s1 s2 s3 : unchanged s1 s2 → unchanged s2 s3 → unchanged s1 s3.
Proof. unfold unchanged. congruence. Qed.

Lemma grows_fs_update op :
  (∀ f f', op f = Ok f' → fs_le f f') → keeps grows (fs_update op).
Proof.
  intros H s r s'. unfold fs_update. destruct (op (fs s)) as [f'|e] eqn:E.
  - intros [= <- <-]. split; [by apply H | done].
  - intros [= <- <-]. apply grows_refl.
Qed.

Create HintDb keeps.
#[export] Hint Resolve grows_refl grows_trans same_fs_refl same_fs_trans
  same_self_refl same_self_trans unchanged_refl unchanged_trans : keeps.
#[export] Hint Resolve mkdir_parents_le write_file_le os_mkdir_le : keeps.

Ltac keeps_side := solve [eauto with keeps].

Ltac keeps_step :=
  match goal with
  | |- keeps _ (bind _ _) => apply keeps_bind; [keeps_side | | intros ?]
  | |- keeps _ (for_each _ _) =>
      apply keeps_for_each; [keeps_side | keeps_side | intros ?]
  | |- keeps _ (for_fold _ _ _) =>
      apply keeps_for_fold; [keeps_side | keeps_side | intros ? ?]
  | |- keeps _ (if _ then _ else _) => apply keeps_if
  | |- keeps _ the_temp_dir => apply keeps_the_temp_dir; keeps_side
  | |- keeps _ (ret _) => apply keeps_ret; keeps_side
  | |- keeps _ (raise _) => apply keeps_raise; keeps_side
  | |- keeps _ (lift _) => apply keeps_lift; keeps_side
  | |- keeps _ (gets _) => apply keeps_gets; keeps_side
  | |- keeps _ (λ s, lift _ s) => apply keeps_stat; keeps_side
  | |- keeps grows (fs_update _) =>
      apply grows_fs_update; intros ? ?; solve [eauto with keeps]
  | |- keeps _ (modify _) => apply keeps_modify; intros ?
  | |- keeps _ (match ?o with _ => _ end) => destruct o
  end.

Ltac keeps_auto := repeat keeps_step.

Lemma grows_with_self g s :
  (∀ m, temp_dir (g m) = temp_dir m) → grows s (with_self g s).
Proof. intros H. split; [apply fs_le_refl | apply H]. Qed.

Lemma grows_extract_by_suffix a : keeps grows (extract_by_suffix a).
Proof.
  unfold extract_by_suffix, extract_rar, extract_zip, extract_tar.
  repeat apply keeps_if; keeps_auto.
  all: unfold extract_entry, extract_tarinfo; keeps_auto.
Qed.

Lemma grows_record_extracted l : keeps grows (record_extracted l).
Proof.
  unfold record_extracted, record_one. keeps_auto. by apply grows_with_self.
Qed.

Lemma grows_extract_all l : keeps grows (extract_all l).
Proof.
  unfold extract_all, extract_one. keeps_auto.
  - apply grows_extract_by_suffix.
  - apply grows_record_extracted.
  - by apply grows_with_self.
Qed.

Lemma grows_with_out o s : grows s (with_out o s).
Proof. split; [apply fs_le_refl | done]. Qed.

Lemma grows_probe_all l : keeps grows (probe_all l).
Proof. unfold probe_all, probe_add, probe. keeps_auto. Qed.

Lemma grows_create_output_archive t c : keeps grows (create_output_archive t c).
Proof.
  unfold create_output_archive, write_sorted, add_member. keeps_auto.
  all: try apply grows_with_out.
  all: match goal with |- grows ?s _ => destruct (out_file s) end;
    [apply grows_with_out | apply grows_refl].
Qed.

Lemma grows_process_archives l t c : keeps grows (process_archives l t c).
Proof.
  unfold process_archives. keeps_auto.
  all: try (by apply grows_with_self).
  - apply grows_probe_all.
  - apply grows_extract_all.
  - apply grows_create_output_archive.
Qed.

(** probing, recording and writing the output leave the tree as it is *)
Lemma same_fs_probe_all l : keeps same_fs (probe_all l).
Proof. unfold probe_all, probe_add, probe. keeps_auto. Qed.

Lemma same_fs_record_extracted l : keeps same_fs (record_extracted l).
Proof. unfold record_extracted, record_one. keeps_auto. done. Qed.

Lemma same_fs_create_output_archive t c : keeps same_fs (create_output_archive t c).
Proof.
  unfold create_output_archive, write_sorted, add_member. keeps_auto.
  all: try done.
  all: match goal with |- same_fs ?s _ => by destruct (out_file s) end.
Qed.

(** * The scoped extraction root *)

Lemma walk_app f cur p q :
  FS.walk f cur (p ++ q) =
  match FS.walk f cur p with
  | Ok l => FS.walk f l q
  | Raise e => Raise e
  end.
Proof.
  revert cur. induction p as [|c p IH]; intros cur; cbn; [done|].
  destruct (PurePath.is_root c); [apply IH|].
  destruct (String.eqb c ".."); [apply IH|].
  destruct (FS.node_at f (cur ++ [c])) as [[|d]|]; [apply IH | done | done].
Qed.

(** a path that walks to a directory stats as one *)
Lemma walk_stat_dir f p l : FS.walk f [] p = Ok l → FS.stat f p = Ok Dir.
Proof.
  unfold FS.stat. destruct (FS.split_last p) as [[d c]|] eqn:S; [|done].
  rewrite (split_last_Some _ _ _ S), walk_app.
  destruct (FS.walk f [] d) as [cur|e]; [|done]. cbn.
  unfold FS.names_dir. destruct (PurePath.is_root c); [done|].
  destruct (String.eqb c ".."); [done|]. cbn.
  destruct (FS.node_at f (cur ++ [c])) as [[|d0]|]; done.
Qed.

(** the directory [os.mkdir] made is where the path leads *)
Lemma os_mkdir_location f p f' :
  FS.os_mkdir f p = Ok f' → FS.dir_location f' p = Some (location p).
Proof.
  intros H. pose proof (os_mkdir_le _ _ _ H) as Hle. revert H.
  unfold FS.os_mkdir, FS.dir_location.
  destruct (FS.split_last p) as [[d c]|] eqn:S; [|done].
  destruct (FS.walk f [] d) as [cur|e] eqn:W; [|done].
  destruct (FS.names_dir c) eqn:Hc; [done|]. rewrite node_at_snoc.
  destruct (f !! (cur ++ [c])) eqn:E; [done|]. intros [= <-].
  rewrite (location_split _ _ _ S Hc), <- (walk_lex _ _ _ _ W).
  rewrite (split_last_Some _ _ _ S), walk_app, (walk_le _ _ _ _ _ Hle W). cbn.
  unfold FS.names_dir in Hc. apply orb_false_elim in Hc as [-> ->].
  by rewrite node_at_snoc, lookup_insert_eq.
Qed.

Lemma dir_location_le f f' p l :
  fs_le f f' → FS.dir_location f p = Some l → FS.dir_location f' p = Some l.
Proof.
  intros Hle. unfold FS.dir_location.
  destruct (FS.walk f [] p) as [l0|] eqn:W; [|done].
  by rewrite (walk_le _ _ _ _ _ Hle W).
Qed.

Lemma rmtree_gone f p l k :
  FS.dir_location f p = Some l → under l k → FS.rmtree f p !! k = None.
Proof.
  intros H Hk. unfold FS.rmtree. rewrite H.
  apply map_lookup_filter_None. right. intros n _ Hn. by apply Hn.
Qed.

Lemma exit_releases s r s' l k :
  exit_ s = (r, s') →
  (∃ p, temp_dir (self s) = Some p ∧ FS.dir_location (fs s) p = Some l) →
  under l k → fs s' !! k = None.
Proof.
  intros H (p & Hp & Hl) Hk. unfold exit_ in H. unfold_m. rewrite Hp in H.
  assert (FS.exists_ (fs s) p = true) as Hex.
  { unfold FS.dir_location in Hl. destruct (FS.walk (fs s) [] p) eqn:W; [|done].
    unfold FS.exists_. by rewrite (walk_stat_dir _ _ _ W). }
  rewrite Hex in H. injection H as <- <-. cbn. eauto using rmtree_gone.
Qed.

Lemma with_merger_run {A} fresh (body : M A) s r s' :
  with_merger fresh body s = (r, s') →
  match FS.os_mkdir (fs s) fresh with
  | Raise e => r = Raise e ∧ s' = s
  | Ok f1 =>
      ∃ s2 u, body (with_self (set_temp_dir (Some fresh)) (with_fs f1 s)) = (r, s2) ∧
              exit_ s2 = (u, s')
  end.
Proof.
  unfold with_merger, enter, bind, fs_update, modify.
  destruct (FS.os_mkdir (fs s) fresh) as [f1|e].
  - destruct (body _) as [r2 s2]. destruct (exit_ s2) as [u s3] eqn:X.
    intros [= <- <-]. eauto.
  - by intros [= <- <-].
Qed.

(** ** C8 *)

(** C8. Whatever the merge does inside the [with] block, return or raise,
    once [__enter__] has made the extraction root nothing is left at or
    below it when the block exits; and when the root could not be made,
    the merge raises with the tree untouched. *)
Theorem extraction_root_released output_path level fresh ins ot c f out r s' :
  merge output_path level fresh ins ot c f out = (r, s') →
  (is_ok (FS.os_mkdir f fresh) = true →
   ∀ k, under (location fresh) k → fs s' !! k = None) ∧
  (∀ e, FS.os_mkdir f fresh = Raise e → r = Raise e ∧ fs s' = f).
Proof.
  unfold merge. intros H. apply with_merger_run in H. cbn [fs] in H.
  destruct (FS.os_mkdir f fresh) as [f1|e] eqn:E.
  - destruct H as (s2 & u & B & X).
    split; [|done]. intros _ k Hk.
    apply grows_process_archives in B as [Hle Ht]. cbn in Hle, Ht.
    eapply exit_releases; [exact X | | exact Hk].
    exists fresh. split; [done|].
    eapply dir_location_le; [exact Hle|]. by apply (os_mkdir_location f).
  - destruct H as [-> ->]. split; [done|]. by intros ? [= <-].
Qed.

Lemma extraction_root_released_witness :
  let s' := (merge Scenario.out 6 Scenario.root
               [Scenario.a_zip; Scenario.b_tar_gz] "zip" "deflate"
               Scenario.tmp None).2 in
  fs s' !! ["tmp"; "archivemaster_k3"] = None ∧
  fs s' !! ["tmp"; "archivemaster_k3"; "x.txt"] = None.
Proof.
  pose proof (extraction_root_released Scenario.out 6 Scenario.root
    [Scenario.a_zip; Scenario.b_tar_gz] "zip" "deflate" Scenario.tmp None
    _ _ (surjective_pairing _)) as [H _].
  assert (is_ok (FS.os_mkdir Scenario.tmp Scenario.root) = true) as E
    by (vm_compute; reflexivity).
  split; apply (H E); [by exists [] | by exists ["x.txt"]].
Defined.

(** * What a successful run of each method did *)

Lemma the_temp_dir_Ok s d s' :
  the_temp_dir s = (Ok d, s') → temp_dir (self s) = Some d ∧ s' = s.
Proof.
  unfold the_temp_dir, bind, gets. destruct (temp_dir (self s)); [|done].
  by intros [= <- <-].
Qed.

Lemma the_temp_dir_Some s d :
  temp_dir (self s) = Some d → the_temp_dir s = (Ok d, s).
Proof. unfold the_temp_dir, bind, gets. by intros ->. Qed.

Lemma fs_update_Ok op s u s' :
  fs_update op s = (Ok u, s') → ∃ f', op (fs s) = Ok f' ∧ s' = with_fs f' s.
Proof.
  unfold fs_update. destruct (op (fs s)) as [f'|]; [|done].
  intros [= <-]. eauto.
Qed.

Lemma extract_entry_Ok es acc m s names s' d :
  temp_dir (self s) = Some d →
  extract_entry es acc m s = (Ok names, s') →
  only_fs s s' ∧
  if not_dir_name m
  then names = acc ++ [m] ∧ store_step d m (data_of es m) (fs s) (fs s')
  else names = acc ∧ fs s' = fs s.
Proof.
  intros Hd. unfold extract_entry, not_dir_name.
  destruct (negb (endswith m "/")).
  2:{ by intros [= <- <-]. }
  intros H.
  apply bind_Ok in H as (d0 & s1 & H1 & H).
  apply the_temp_dir_Ok in H1 as [H1 ->]. assert (d0 = d) as -> by congruence.
  apply bind_Ok in H as (u1 & s2 & H2 & H).
  apply fs_update_Ok in H2 as (f1 & Hf1 & ->).
  apply bind_Ok in H as (data & s3 & H3 & H).
  apply lift_Ok in H3 as [H3 ->].
  apply bind_Ok in H as (u2 & s4 & H4 & H).
  apply fs_update_Ok in H4 as (f2 & Hf2 & ->).
  injection H as <- <-. cbn in *.
  split; [done|]. split; [done|].
  exists f1. unfold data_of. rewrite H3. done.
Qed.

Lemma extract_entries_Ok es d l acc s names s' :
  temp_dir (self s) = Some d →
  for_fold l acc (extract_entry es) s = (Ok names, s') →
  only_fs s s' ∧
  names = acc ++ List.filter not_dir_name l ∧
  run_writes d (map (λ m, (m, data_of es m)) (List.filter not_dir_name l))
    (fs s) (fs s').
Proof.
  revert acc s. induction l as [|m l IH]; intros acc s Hd H; cbn in H.
  - injection H as <- <-. by rewrite app_nil_r.
  - apply bind_Ok in H as (acc1 & s1 & H1 & H).
    apply (extract_entry_Ok _ _ _ _ _ _ d Hd) in H1 as [[Hs Ho] H1].
    apply IH in H as ([Hs' Ho'] & -> & Hr); [|congruence].
    split; [split; congruence|]. cbn.
    destruct (not_dir_name m).
    + destruct H1 as [-> H1]. split; [by rewrite <- app_assoc|].
      cbn. eauto.
    + destruct H1 as [-> H1]. split; [done|]. by rewrite <- H1.
Qed.

Lemma extract_tarinfo_Ok acc m s names s' d :
  temp_dir (self s) = Some d →
  extract_tarinfo acc m s = (Ok names, s') →
  only_fs s s' ∧
  if isfile m
  then names = acc ++ [tname m] ∧ store_step d (tname m) (tdata m) (fs s) (fs s')
  else names = acc ∧ fs s' = fs s.
Proof.
  intros Hd. unfold extract_tarinfo.
  destruct (isfile m).
  2:{ by intros [= <- <-]. }
  intros H.
  apply bind_Ok in H as (d0 & s1 & H1 & H).
  apply the_temp_dir_Ok in H1 as [H1 ->]. assert (d0 = d) as -> by congruence.
  apply bind_Ok in H as (u1 & s2 & H2 & H).
  apply fs_update_Ok in H2 as (f1 & Hf1 & ->).
  apply bind_Ok in H as (u2 & s4 & H4 & H).
  apply fs_update_Ok in H4 as (f2 & Hf2 & ->).
  injection H as <- <-. cbn in *.
  split; [done|]. split; [done|]. by exists f1.
Qed.

Lemma extract_tarinfos_Ok d l acc s names s' :
  temp_dir (self s) = Some d →
  for_fold l acc extract_tarinfo s = (Ok names, s') →
  only_fs s s' ∧
  names = acc ++ map tname (List.filter isfile l) ∧
  run_writes d (map (λ m, (tname m, tdata m)) (List.filter isfile l))
    (fs s) (fs s').
Proof.
  revert acc s. induction l as [|m l IH]; intros acc s Hd H; cbn in H.
  - injection H as <- <-. by rewrite app_nil_r.
  - apply bind_Ok in H as (acc1 & s1 & H1 & H).
    apply (extract_tarinfo_Ok _ _ _ _ _ d Hd) in H1 as [[Hs Ho] H1].
    apply IH in H as ([Hs' Ho'] & -> & Hr); [|congruence].
    split; [split; congruence|]. cbn.
    destruct (isfile m).
    + destruct H1 as [-> H1]. split; [by rewrite <- app_assoc|].
      cbn. eauto.
    + destruct H1 as [-> H1]. split; [done|]. by rewrite <- H1.
Qed.

(** a successful extraction: the input was dispatched and opened, the
    names returned are its file names, and the tree went through its
    writes; nothing else of the state moved *)
Lemma extract_by_suffix_Ok a s names s' d :
  temp_dir (self s) = Some d →
  extract_by_suffix a s = (Ok names, s') →
  readable a ∧ names = file_names a ∧ only_fs s s' ∧
  run_writes d (writes a) (fs s) (fs s').
Proof.
  intros Hd. unfold extract_by_suffix, readable, file_names, writes.
  destruct (String.eqb_spec (lower (PurePath.suffix (apath a))) ".rar") as [E1|E1];
  [|destruct (String.eqb_spec (lower (PurePath.suffix (apath a))) ".zip") as [E2|E2];
    [|destruct (str_in (lower (PurePath.suffix (apath a))) tar_suffixes) eqn:E3]].
  - unfold extract_rar, open_rar. intros H.
    apply bind_Ok in H as (es & s1 & H1 & H). apply lift_Ok in H1 as [H1 ->].
    destruct (stored a) as [| |?|es'|?]; try done. injection H1 as ->.
    apply (extract_entries_Ok _ d) in H as (Ho & -> & Hr); [|done].
    split; [left; eauto|]. done.
  - unfold extract_zip, open_zip. intros H.
    apply bind_Ok in H as (es & s1 & H1 & H). apply lift_Ok in H1 as [H1 ->].
    destruct (stored a) as [| |es'|?|?]; try done. injection H1 as ->.
    apply (extract_entries_Ok _ d) in H as (Ho & -> & Hr); [|done].
    split; [right; left; eauto|]. done.
  - unfold extract_tar, open_tar. intros H.
    apply bind_Ok in H as (es & s1 & H1 & H). apply lift_Ok in H1 as [H1 ->].
    destruct (stored a) as [| |?|?|ms]; try done. injection H1 as ->.
    apply (extract_tarinfos_Ok d) in H as (Ho & -> & Hr); [|done].
    split; [right; right; eauto|]. done.
  - done.
Qed.

(** * Sequences of writes *)

Lemma run_writes_app d w1 w2 f f' :
  run_writes d (w1 ++ w2) f f' ↔
  ∃ f1, run_writes d w1 f f1 ∧ run_writes d w2 f1 f'.
Proof.
  revert f. induction w1 as [|[n c] w1 IH]; intros f; cbn.
  - split; [eauto | by intros (f1 & -> & H)].
  - split.
    + intros (f1 & H1 & H). apply IH in H as (f2 & H2 & H3). eauto.
    + intros (f2 & (f1 & H1 & H2) & H3). exists f1. split; [done|].
      apply IH. eauto.
Qed.

Lemma store_step_le d n c f f' : store_step d n c f f' → fs_le f f'.
Proof.
  intros (f1 & H1 & H2).
  eauto using fs_le_trans, mkdir_parents_le, write_file_le.
Qed.

Lemma run_writes_le d ws f f' : run_writes d ws f f' → fs_le f f'.
Proof.
  revert f. induction ws as [|[n c] ws IH]; intros f; cbn.
  - intros ->. apply fs_le_refl.
  - intros (f1 & H1 & H). eauto using fs_le_trans, store_step_le.
Qed.

(** right after a write the file is there with the bytes written *)
Lemma store_step_stat d n c f f' :
  store_step d n c f f' → FS.stat f' (PurePath.truediv d n) = Ok (File c).
Proof. intros (f1 & H1 & H2). by apply write_file_spec in H2 as (_ & _ & H2). Qed.


Lemma stat_file_kind f p c n' :
  FS.stat f p = Ok n' → same_kind (File c) n' → ∃ x, n' = File x.
Proof. destruct n'; [done | eauto]. Qed.

(** every name written is a file at the end of the sequence *)
Lemma run_writes_exists d ws f f' n c :
  run_writes d ws f f' → In (n, c) ws →
  ∃ x, FS.stat f' (PurePath.truediv d n) = Ok (File x).
Proof.
  revert f. induction ws as [|[n0 c0] ws IH]; intros f; cbn; [done|].
  intros (f1 & H1 & H) [[= -> ->]|Hin]; [|eauto].
  apply store_step_stat in H1. apply run_writes_le in H.
  destruct (stat_le _ _ _ _ H H1) as (n' & Hn' & K).
  destruct n'; [done | eauto].
Qed.



Lemma file_names_writes a : file_names a = map fst (writes a).
Proof.
  unfold file_names, writes. destruct (stored a); try done;
    rewrite map_map; cbn; by rewrite ?map_id.
Qed.

(** * Recording and the extraction loop *)

Lemma with_self_id s : with_self (set_extracted_files (extracted_files (self s))) s = s.
Proof. by destruct s as [[] ? ?]. Qed.

(** lines 177-180 never raise once the root is set: the records grow by
    the names whose file exists, in order *)
Lemma record_extracted_run d names s :
  temp_dir (self s) = Some d →
  record_extracted names s =
  (Ok tt, with_self (set_extracted_files
            (extracted_files (self s) ++
             List.filter (FS.exists_ (fs s)) (map (PurePath.truediv d) names))) s).
Proof.
  unfold record_extracted. revert s.
  induction names as [|n names IH]; intros s Hd; cbn.
  - unfold ret. by rewrite app_nil_r, with_self_id.
  - unfold bind at 1. unfold record_one at 1.
    unfold bind at 1. rewrite (the_temp_dir_Some _ _ Hd).
    unfold bind at 1, gets at 1.
    destruct (FS.exists_ (fs s) (PurePath.truediv d n)) eqn:E.
    + unfold modify at 1. rewrite IH by done. cbn. by rewrite <- app_assoc.
    + unfold ret at 1. by rewrite IH.
Qed.

Lemma filter_all {A} (p : A → bool) l :
  (∀ x, In x l → p x = true) → List.filter p l = l.
Proof.
  induction l as [|x l IH]; cbn; [done|]. intros H.
  rewrite (H x) by auto. f_equal. auto.
Qed.

Lemma extract_one_Ok d a s u s' :
  temp_dir (self s) = Some d →
  extract_one a s = (Ok u, s') →
  readable a ∧ run_writes d (writes a) (fs s) (fs s') ∧ same_setup s s' ∧
  extracted_files (self s') =
    extracted_files (self s) ++ map (PurePath.truediv d) (file_names a).
Proof.
  intros Hd H. unfold extract_one in H.
  apply bind_Ok in H as (names & s1 & H1 & H).
  apply (extract_by_suffix_Ok _ _ _ _ d Hd) in H1 as (Hr & -> & [Hs Ho] & Hw).
  apply bind_Ok in H as (u1 & s2 & H2 & H).
  rewrite (record_extracted_run d) in H2 by congruence.
  injection H2 as ?. injection H as ?. subst s2 s'. cbn.
  split; [done|]. split; [done|]. unfold same_setup. cbn. rewrite Hs.
  split; [done|].
  f_equal. apply filter_all. intros p Hp.
  apply in_map_iff in Hp as (n & <- & Hn).
  rewrite file_names_writes in Hn. apply in_map_iff in Hn as ([n' c] & <- & Hin).
  destruct (run_writes_exists _ _ _ _ _ _ Hw Hin) as (x & Hx).
  unfold FS.exists_. cbn. by rewrite Hx.
Qed.

Lemma extract_all_Ok d ins s u s' :
  temp_dir (self s) = Some d →
  extract_all ins s = (Ok u, s') →
  Forall readable ins ∧
  run_writes d (flat_map writes ins) (fs s) (fs s') ∧ same_setup s s' ∧
  extracted_files (self s') =
    extracted_files (self s) ++
    map (PurePath.truediv d) (flat_map file_names ins).
Proof.
  unfold extract_all. revert s.
  induction ins as [|a ins IH]; intros s Hd H; cbn in H.
  - injection H as ?. subst s'. cbn. by rewrite app_nil_r.
  - apply bind_Ok in H as (u1 & s1 & H1 & H).
    apply (extract_one_Ok d) in H1 as (Hr & Hw & (Ht & Hp & Hc & Ho) & He); [|done].
    apply IH in H as (Hrs & Hws & (Ht' & Hp' & Hc' & Ho') & Hes); [|congruence].
    split; [by constructor|]. split.
    { cbn. apply run_writes_app. eauto. }
    split; [repeat split; congruence|].
    rewrite Hes, He. cbn. by rewrite map_app, app_assoc.
Qed.

(** * Writing the output *)

Lemma add_member_Ok d p s u s' fmt ms0 :
  temp_dir (self s) = Some d →
  out_file s = Some {| format := fmt; members := ms0 |} →
  add_member p s = (Ok u, s') →
  ∃ r n, PurePath.relative_to p d = Some r ∧ FS.stat (fs s) p = Ok n ∧
         s' = with_out (Some {| format := fmt;
                                members := ms0 ++ [{| arcname := r; source := n |}] |}) s.
Proof.
  intros Hd Ho H. unfold add_member in H.
  apply bind_Ok in H as (d0 & s1 & H1 & H).
  apply the_temp_dir_Ok in H1 as [H1 ->]. assert (d0 = d) as -> by congruence.
  apply bind_Ok in H as (r & s2 & H2 & H).
  destruct (PurePath.relative_to p d) as [r0|]; [|done].
  injection H2 as ? ?. subst r0 s2.
  apply bind_Ok in H as (n & s3 & H3 & H).
  apply lift_Ok in H3 as [H3 ->].
  unfold modify in H. rewrite Ho in H. injection H as ?. subst s'. cbn. eauto.
Qed.

Lemma add_members_Ok d files s u s' fmt ms0 :
  temp_dir (self s) = Some d →
  out_file s = Some {| format := fmt; members := ms0 |} →
  for_each files add_member s = (Ok u, s') →
  ∃ ms, manifest d (fs s) files = Ok ms ∧
        s' = with_out (Some {| format := fmt; members := ms0 ++ ms |}) s.
Proof.
  revert s ms0. induction files as [|p files IH]; intros s ms0 Hd Ho H; cbn in H.
  - injection H as ?. subst s'. exists []. rewrite app_nil_r.
    split; [done|]. destruct s; cbn in *. by subst.
  - apply bind_Ok in H as (u1 & s1 & H1 & H).
    destruct (add_member_Ok _ _ _ _ _ _ _ Hd Ho H1) as (r & n & Hr & Hn & ->).
    eapply IH in H as (ms & Hms & ->); [|done|reflexivity]. cbn in *.
    rewrite Hr, Hn, Hms. eexists. split; [done|]. by rewrite <- app_assoc.
Qed.

Lemma write_sorted_Ok d fmt s u s' :
  temp_dir (self s) = Some d →
  write_sorted fmt s = (Ok u, s') →
  ∃ ms, manifest d (fs s) (sorted (extracted_files (self s))) = Ok ms ∧
        s' = with_out (Some {| format := fmt; members := ms |}) s.
Proof.
  intros Hd H. unfold write_sorted in H.
  apply bind_Ok in H as (u1 & s1 & H1 & H). injection H1 as ?. subst s1.
  apply bind_Ok in H as (files & s2 & H2 & H). injection H2 as ? ?. subst files s2.
  apply (add_members_Ok d _ _ _ _ fmt []) in H as (ms & Hms & ->); [|done|done].
  cbn in *. eauto.
Qed.

Lemma create_zip c :
  create_output_archive "zip" c =
  (level <- gets (λ s, compression_level (self s)) ;; write_sorted (ZipDeflated level)).
Proof. reflexivity. Qed.

Lemma create_tar c :
  create_output_archive "tar" c =
  write_sorted (TarMode (if String.eqb c "gzip" then "w:gz" else "w")).
Proof. reflexivity. Qed.

Lemma create_tar_gz c : create_output_archive "tar.gz" c = write_sorted (TarMode "w:gz").
Proof. reflexivity. Qed.

Lemma create_tar_bz2 c : create_output_archive "tar.bz2" c = write_sorted (TarMode "w:bz2").
Proof. reflexivity. Qed.

Lemma create_output_archive_Ok d t c s u s' :
  temp_dir (self s) = Some d → supported_output t →
  create_output_archive t c s = (Ok u, s') →
  ∃ fmt ms, manifest d (fs s) (sorted (extracted_files (self s))) = Ok ms ∧
            s' = with_out (Some {| format := fmt; members := ms |}) s.
Proof.
  intros Hd Ht H.
  destruct Ht as [-> | [-> | [-> | ->]]];
    rewrite ?create_zip, ?create_tar, ?create_tar_gz, ?create_tar_bz2 in H.
  - apply bind_Ok in H as (l & s1 & H1 & H). injection H1 as ? ?. subst l s1.
    apply (write_sorted_Ok d) in H as (ms & ? & ?); eauto.
  - apply (write_sorted_Ok d) in H as (ms & ? & ?); eauto.
  - apply (write_sorted_Ok d) in H as (ms & ? & ?); eauto.
  - apply (write_sorted_Ok d) in H as (ms & ? & ?); eauto.
Qed.




(** * The whole of [process_archives] *)

Lemma probe_all_pure ins : keeps unchanged (probe_all ins).
Proof. unfold probe_all, probe_add, probe. keeps_auto. Qed.

Lemma same_self_create_output_archive t c : keeps same_self (create_output_archive t c).
Proof.
  unfold create_output_archive, write_sorted, add_member. keeps_auto.
  all: try done.
  all: match goal with |- same_self ?s _ => by destruct (out_file s) end.
Qed.

(** a run that returns went through every phase without an exception *)
Lemma process_archives_Ok d ins t c s r s' :
  temp_dir (self s) = Some d →
  process_archives ins t c s = (Ok r, s') →
  Forall readable ins ∧
  run_writes d (flat_map writes ins) (fs s) (fs s') ∧
  extracted_files (self s') = map (PurePath.truediv d) (flat_map file_names ins) ∧
  temp_dir (self s') = Some d ∧
  r = {| success := true; output_file := output_path (self s);
         total_input_files := length ins;
         total_extracted_files := length (extracted_files (self s')) |} ∧
  ∃ o, out_file s' = Some o ∧
       (supported_output t →
        manifest d (fs s') (sorted (extracted_files (self s'))) = Ok (members o)).
Proof.
  intros Hd H. unfold process_archives in H.
  apply bind_Ok in H as (u0 & s0 & H0 & H). injection H0 as ?. subst s0.
  apply bind_Ok in H as (n & s1 & H1 & H).
  pose proof (probe_all_pure _ _ _ _ H1) as Hu. unfold unchanged in Hu. subst s1.
  apply bind_Ok in H as (u2 & s2 & H2 & H). injection H2 as ?. subst s2.
  apply bind_Ok in H as (u3 & s3 & H3 & H). injection H3 as ?. subst s3.
  apply bind_Ok in H as (u4 & s4 & H4 & H).
  apply (extract_all_Ok d) in H4 as (Hr & Hw & (Ht & Hp & Hc & Ho) & He); [|done].
  cbn in Hw, Ht, Hp, Hc, Ho, He.
  apply bind_Ok in H as (u5 & s5 & H5 & H).
  pose proof (same_fs_create_output_archive _ _ _ _ _ H5) as Hfs.
  apply bind_Ok in H as (out & s6 & H6 & H). injection H6 as ? ?. subst out s6.
  destruct (out_file s5) as [o|] eqn:Eo; [|done].
  apply bind_Ok in H as (m & s7 & H7 & H). injection H7 as ? ?. subst m s7.
  injection H as ? ?. subst r s'.
  pose proof (same_self_create_output_archive _ _ _ _ _ H5) as Hself.
  unfold same_fs in Hfs. unfold same_self in Hself.
  rewrite Hself, Hfs.
  split; [done|]. split; [done|]. split; [done|].
  split; [congruence|]. split; [by rewrite Hp|].
  exists o. split; [done|]. intros Hsup.
  apply (create_output_archive_Ok d) in H5 as (fmt & ms & Hm & ->); [|congruence|done].
  cbn in Eo. injection Eo as <-. done.
Qed.

(** * The merge inside its [with] block *)

Lemma pair_eta_fst {A B} (p : A * B) (a : A) : p.1 = a → p = (a, p.2).
Proof. destruct p. cbn. by intros ->. Qed.

Lemma exit_out s r s' : exit_ s = (r, s') → out_file s' = out_file s.
Proof.
  unfold exit_, bind, gets. destruct (temp_dir (self s)) as [p|].
  - destruct (FS.exists_ (fs s) p); by intros [= <- <-].
  - by intros [= <- <-].
Qed.

(** a merge that returns made its root and ran [process_archives] in it *)
Lemma merge_Ok output_path level fresh ins t c f out r s' :
  merge output_path level fresh ins t c f out = (Ok r, s') →
  ∃ s1 s2, temp_dir (self s1) = Some fresh ∧
           process_archives ins t c s1 = (Ok r, s2) ∧
           out_file s' = out_file s2.
Proof.
  unfold merge. intros H. apply with_merger_run in H. cbn [fs] in H.
  destruct (FS.os_mkdir f fresh) as [f1|e]; [|by destruct H].
  destruct H as (s2 & u & B & X). apply exit_out in X.
  eexists _, s2. split; [|split; [exact B | exact X]]. done.
Qed.

(** ** C3 *)








(** ** C6 *)

Lemma format_kept_refl fmt s : format_kept fmt s s.
Proof. by intros H. Qed.

Lemma format_kept_trans fmt s1 s2 s3 :
  format_kept fmt s1 s2 → format_kept fmt s2 s3 → format_kept fmt s1 s3.
Proof. unfold format_kept. auto. Qed.

#[export] Hint Resolve format_kept_refl format_kept_trans : keeps.

Lemma format_kept_add_member fmt p : keeps (format_kept fmt) (add_member p).
Proof.
  unfold add_member. keeps_auto.
  intros (ms & E). rewrite E. cbn. by eexists.
Qed.

(** once the output is opened as [fmt] it stays so, whether the members
    all get written or one of them fails *)
Lemma write_sorted_format fmt s r s' :
  write_sorted fmt s = (r, s') → has_format fmt s'.
Proof.
  unfold write_sorted. intros H.
  apply bind_any in H as [(e & _ & H) | (u & s1 & H1 & H)]; [done|].
  injection H1 as ?. subst s1.
  apply bind_any in H as [(e & _ & H) | (files & s2 & H2 & H)]; [done|].
  injection H2 as ? ?. subst files s2.
  assert (keeps (format_kept fmt)
            (for_each (sorted (extracted_files (self s))) add_member)) as K.
  { keeps_auto. apply format_kept_add_member. }
  apply K in H. apply H. by exists [].
Qed.

(** C6, as the code has it. ZIP output is deflated at the caller's level.
    Formats [tar.gz] and [tar.bz2] fix the compression by themselves.
    Format [tar] takes it from the compression argument: gzip when that
    is ["gzip"], none otherwise. No TAR-family format takes a level. *)
Theorem output_compression_by_format c s r s' :
  (create_output_archive "zip" c s = (r, s') →
   has_format (ZipDeflated (compression_level (self s))) s') ∧
  (create_output_archive "tar.gz" c s = (r, s') → has_format (TarMode "w:gz") s') ∧
  (create_output_archive "tar.bz2" c s = (r, s') → has_format (TarMode "w:bz2") s') ∧
  (create_output_archive "tar" c s = (r, s') →
   has_format (TarMode (if String.eqb c "gzip" then "w:gz" else "w")) s').
Proof.
  rewrite create_zip, create_tar, create_tar_gz, create_tar_bz2.
  repeat split; apply write_sorted_format.
Qed.

Lemma output_compression_by_format_witness :
  let s0 := {| self := set_temp_dir (Some Scenario.root) (init Scenario.out 9);
               fs := Scenario.tmp; out_file := None |} in
  has_format (ZipDeflated 9) (create_output_archive "zip" "deflate" s0).2 ∧
  has_format (TarMode "w:gz") (create_output_archive "tar" "gzip" s0).2 ∧
  has_format (TarMode "w") (create_output_archive "tar" "bzip2" s0).2.
Proof.
  intros s0. repeat split.
  - exact (proj1 (output_compression_by_format "deflate" s0 _ _)
             (surjective_pairing _)).
  - exact (proj2 (proj2 (proj2 (output_compression_by_format "gzip" s0 _ _)))
             (surjective_pairing _)).
  - exact (proj2 (proj2 (proj2 (output_compression_by_format "bzip2" s0 _ _)))
             (surjective_pairing _)).
Defined.

(** the claim as written fails: format [tar] with compression ["gzip"]
    opens the output as a gzip-compressed tar *)
Lemma tar_follows_compression_argument :
  ¬ (∀ c s r s', create_output_archive "tar" c s = (r, s') →
                 has_format (TarMode "w") s').
Proof.
  intros H.
  pose (s0 := {| self := set_temp_dir (Some Scenario.root) (init Scenario.out 9);
                 fs := Scenario.tmp; out_file := None |}).
  destruct (H "gzip" s0 _ _ (surjective_pairing _)) as (ms & E).
  vm_compute in E. discriminate.
Qed.

(** ** C7 *)

(** C7. The records made for one input are, in order, the returned names
    whose file exists at [temp_dir / name]: a name whose file is missing
    is passed over and nothing is raised. After an extraction phase that
    raised nothing, the records are the non-directory members of all
    inputs whose file exists on disk. *)
Theorem records_are_members_on_disk d ins s u s' :
  temp_dir (self s) = Some d →
  (∀ names, record_extracted names s =
     (Ok tt, with_self (set_extracted_files
               (extracted_files (self s) ++
                List.filter (FS.exists_ (fs s)) (map (PurePath.truediv d) names))) s)) ∧
  (extract_all ins s = (Ok u, s') →
   extracted_files (self s') =
     extracted_files (self s) ++
     List.filter (FS.exists_ (fs s'))
       (map (PurePath.truediv d) (flat_map file_names ins))).
Proof.
  intros Hd. split; [intros names; by apply record_extracted_run|].
  intros H. apply (extract_all_Ok d) in H as (_ & Hw & _ & ->); [|done].
  f_equal. symmetry. apply filter_all. intros p Hp.
  apply in_map_iff in Hp as (n & <- & Hn).
  assert (In n (map fst (flat_map writes ins))) as Hin.
  { clear -Hn. induction ins as [|a ins IH]; cbn in *; [done|].
    rewrite map_app, in_app_iff. apply in_app_iff in Hn as [Hn|Hn]; [|auto].
    left. by rewrite <- file_names_writes. }
  apply in_map_iff in Hin as ([n' c] & <- & Hin).
  destruct (run_writes_exists _ _ _ _ _ _ Hw Hin) as (x & Hx).
  unfold FS.exists_. cbn. by rewrite Hx.
Qed.

Lemma records_are_members_on_disk_witness :
  extracted_files (self (record_extracted ["x.txt"; "ghost.txt"] Scenario.with_x).2) =
    [ ["/"; "tmp"; "archivemaster_k3"; "x.txt"] ] ∧
  extracted_files (self (extract_all [Scenario.a_zip; Scenario.b_tgz] Scenario.entered).2) =
    [ ["/"; "tmp"; "archivemaster_k3"; "x.txt"];
      ["/"; "tmp"; "archivemaster_k3"; "x.txt"];
      ["/"; "tmp"; "archivemaster_k3"; "y.txt"] ].
Proof.
  assert (E : (extract_all [Scenario.a_zip; Scenario.b_tgz] Scenario.entered).1 = Ok tt)
    by (vm_compute; reflexivity).
  split.
  - rewrite (proj1 (records_are_members_on_disk Scenario.root [] Scenario.with_x
                      tt Scenario.with_x eq_refl) ["x.txt"; "ghost.txt"]).
    vm_compute. reflexivity.
  - rewrite (proj2 (records_are_members_on_disk Scenario.root _ Scenario.entered
                      tt _ eq_refl) (pair_eta_fst _ _ E)).
    vm_compute. reflexivity.
Defined.

(** ** C9 *)

Lemma extract_by_suffix_readable a s names s' :
  extract_by_suffix a s = (Ok names, s') → readable a.
Proof.
  unfold extract_by_suffix, readable.
  destruct (String.eqb_spec (lower (PurePath.suffix (apath a))) ".rar") as [E1|E1];
  [|destruct (String.eqb_spec (lower (PurePath.suffix (apath a))) ".zip") as [E2|E2];
    [|destruct (str_in (lower (PurePath.suffix (apath a))) tar_suffixes) eqn:E3]];
  [unfold extract_rar, open_rar | unfold extract_zip, open_zip
  | unfold extract_tar, open_tar | done];
  intros H; apply bind_Ok in H as (es & s1 & H1 & _);
  apply lift_Ok in H1 as [H1 _]; destruct (stored a); try done; eauto 6.
Qed.

Lemma extract_all_readable ins s u s' :
  extract_all ins s = (Ok u, s') → Forall readable ins.
Proof.
  unfold extract_all. revert s. induction ins as [|a ins IH]; intros s H; cbn in H.
  - constructor.
  - apply bind_Ok in H as (u1 & s1 & H1 & H). constructor; [|eauto].
    unfold extract_one in H1. apply bind_Ok in H1 as (names & s2 & H2 & _).
    eauto using extract_by_suffix_readable.
Qed.

Lemma process_archives_returns ins t c s r s' :
  process_archives ins t c s = (Ok r, s') →
  success r = true ∧ Forall readable ins.
Proof.
  intros H. unfold process_archives in H.
  apply bind_Ok in H as (u0 & s0 & _ & H).
  apply bind_Ok in H as (n & s1 & _ & H).
  apply bind_Ok in H as (u2 & s2 & _ & H).
  apply bind_Ok in H as (u3 & s3 & _ & H).
  apply bind_Ok in H as (u4 & s4 & H4 & H).
  apply extract_all_readable in H4.
  apply bind_Ok in H as (u5 & s5 & _ & H).
  apply bind_Ok in H as (out & s6 & _ & H).
  destruct out; [|done].
  apply bind_Ok in H as (m & s7 & _ & H). by injection H as <- _.
Qed.









(** * The suffix of a path *)

Lemma lower_char_dot c : Ascii.eqb (lower_char c) "." = Ascii.eqb c ".".
Proof. destruct c as [[] [] [] [] [] [] [] []]; reflexivity. Qed.

Lemma rfind_lower s : rfind "." (lower s) = rfind "." s.
Proof.
  induction s as [|a s IH]; cbn; [done|]. by rewrite IH, lower_char_dot.
Qed.

Lemma length_lower s : String.length (lower s) = String.length s.
Proof. induction s as [|a s IH]; cbn; [done|]. by rewrite IH. Qed.

Lemma slice_from_lower i s : lower (slice_from i s) = slice_from i (lower s).
Proof.
  revert s. induction i as [|i IH]; intros s; [by destruct s|].
  destruct s as [|a s]; cbn; [done|]. apply IH.
Qed.

Lemma suffix_name p : PurePath.suffix p = name_suffix (PurePath.name p).
Proof. reflexivity. Qed.

Lemma lower_name_suffix nm : lower (name_suffix nm) = name_suffix (lower nm).
Proof.
  unfold name_suffix. rewrite rfind_lower, length_lower.
  destruct (_ && _)%Z; [apply slice_from_lower | done].
Qed.

Lemma endswith_app s suf :
  endswith s suf = true → ∃ pre, s = (pre ++ suf)%string.
Proof.
  induction s as [|a s IH].
  - change (endswith "" suf) with (String.eqb "" suf || false).
    rewrite orb_false_r. intros H. apply String.eqb_eq in H. by exists "".
  - change (endswith (String a s) suf)
      with (String.eqb (String a s) suf || endswith s suf).
    intros H. apply orb_true_iff in H as [H|H].
    + apply String.eqb_eq in H. by exists "".
    + destruct (IH H) as (pre & ->). by exists (String a pre).
Qed.

Lemma rfind_nonneg_bound c s : (-1 ≤ rfind c s < Z.of_nat (String.length s))%Z.
Proof.
  induction s as [|a s IH]; cbn -[Z.of_nat]; [lia|].
  destruct (0 <=? rfind c s)%Z eqn:E; [lia|].
  destruct (Ascii.eqb a c); lia.
Qed.

Lemma rfind_app c pre t :
  (0 ≤ rfind c t)%Z →
  rfind c (pre ++ t)%string = (Z.of_nat (String.length pre) + rfind c t)%Z.
Proof.
  intros H. induction pre as [|a pre IH]; [done|].
  change (String a pre +:+ t) with (String a (pre +:+ t)).
  cbn -[Z.of_nat]. rewrite IH. destruct (0 <=? _)%Z eqn:E; lia.
Qed.

Lemma slice_from_app pre t i :
  slice_from (String.length pre + i) (pre ++ t)%string = slice_from i t.
Proof.
  induction pre as [|a pre IH]; [done|].
  change (String a pre +:+ t) with (String a (pre +:+ t)). apply IH.
Qed.

Lemma length_append pre t :
  String.length (pre ++ t)%string = String.length pre + String.length t.
Proof.
  induction pre as [|a pre IH]; [done|].
  change (String a pre +:+ t) with (String a (pre +:+ t)). cbn. by rewrite IH.
Qed.

(** a name ending in a two-part extension has only the last part as its
    suffix *)
Lemma name_suffix_app pre t i :
  rfind "." t = Z.of_nat i → (0 < i + String.length pre)%nat →
  (i + 1 < String.length t)%nat →
  name_suffix (pre ++ t)%string = slice_from i t.
Proof.
  intros Hi Hpos Hlt. unfold name_suffix.
  rewrite rfind_app, Hi, length_append by lia.
  replace (_ && _)%Z with true
    by (symmetry; apply andb_true_iff; split; apply Z.ltb_lt; lia).
  replace (Z.to_nat _) with (String.length pre + i) by lia.
  apply slice_from_app.
Qed.

(** the suffix of a path never holds two dots: pathlib takes it from the
    last one *)
Lemma tar_gz_suffix p :
  endswith (lower (PurePath.name p)) ".tar.gz" = true →
  lower (PurePath.suffix p) = ".gz".
Proof.
  intros H. rewrite suffix_name, lower_name_suffix.
  apply endswith_app in H as (pre & ->).
  rewrite (name_suffix_app pre ".tar.gz" 4); [done | done | lia | cbn; lia].
Qed.

Lemma tar_bz2_suffix p :
  endswith (lower (PurePath.name p)) ".tar.bz2" = true →
  lower (PurePath.suffix p) = ".bz2".
Proof.
  intros H. rewrite suffix_name, lower_name_suffix.
  apply endswith_app in H as (pre & ->).
  rewrite (name_suffix_app pre ".tar.bz2" 4); [done | done | lia | cbn; lia].
Qed.

(** ** C1 *)

(** C1 fails on the code. An input named [*.tar.gz] or [*.tar.bz2], in
    any letter case, has suffix [.gz] or [.bz2]: probing passes over it
    without opening it and the extraction loop raises [ValueError]; the
    entries ['.tar.gz'] and ['.tar.bz2'] of the extension list are never
    matched. *)
Theorem tar_gz_not_dispatched a s :
  endswith (lower (PurePath.name (apath a))) ".tar.gz" = true ∨
  endswith (lower (PurePath.name (apath a))) ".tar.bz2" = true →
  (lower (PurePath.suffix (apath a)) = ".gz" ∨
   lower (PurePath.suffix (apath a)) = ".bz2") ∧
  probe a s = (Ok 0, s) ∧
  extract_by_suffix a s =
    (Raise (ValueError ("Unsupported archive format: " ++
                        lower (PurePath.suffix (apath a)))%string), s).
Proof.
  intros H.
  assert (lower (PurePath.suffix (apath a)) = ".gz" ∨
          lower (PurePath.suffix (apath a)) = ".bz2") as E
    by (destruct H; eauto using tar_gz_suffix, tar_bz2_suffix).
  split; [done|]. unfold probe, extract_by_suffix.
  by destruct E as [-> | ->].
Qed.

Lemma tar_gz_not_dispatched_witness :
  probe Scenario.b_tar_gz Scenario.entered = (Ok 0, Scenario.entered) ∧
  extract_by_suffix Scenario.b_tar_gz Scenario.entered =
    (Raise (ValueError "Unsupported archive format: .gz"), Scenario.entered).
Proof.
  exact (proj2 (tar_gz_not_dispatched Scenario.b_tar_gz Scenario.entered
                  (or_introl eq_refl))).
Defined.

(** ** C2 *)

(** C2 fails on the code. Merging [a.zip] and [b.tar.gz] into a zip
    raises [ValueError] for [b.tar.gz] and writes no output. *)
Theorem example_scenario_raises :
  (Scenario.run [Scenario.a_zip; Scenario.b_tar_gz]).1 =
    Raise (ValueError "Unsupported archive format: .gz") ∧
  out_file (Scenario.run [Scenario.a_zip; Scenario.b_tar_gz]).2 = None.
Proof. split; vm_compute; reflexivity. Qed.

(** ** C10 *)

(** C10. A member that is extracted lands where [temp_dir / name] leads,
    wherever that is; a name with a parent-directory component or an
    absolute name leads outside the extraction root, for ZIP and for RAR
    alike. *)
Theorem extraction_is_not_contained :
  (∀ d es acc member s names s',
     temp_dir (self s) = Some d → not_dir_name member = true →
     extract_entry es acc member s = (Ok names, s') →
     fs s' !! location (PurePath.truediv d member) =
       Some (File (data_of es member))) ∧
  ((extract_zip Scenario.evil_zip Scenario.entered).1 =
     Ok ["../evil.txt"; "/etc/cron.d/job"] ∧
   fs (extract_zip Scenario.evil_zip Scenario.entered).2 !! ["tmp"; "evil.txt"] =
     Some (File "x") ∧
   fs (extract_zip Scenario.evil_zip Scenario.entered).2 !! ["etc"; "cron.d"; "job"] =
     Some (File "y")) ∧
  ((extract_rar Scenario.evil_rar Scenario.entered).1 =
     Ok ["../evil.txt"; "/etc/cron.d/job"] ∧
   fs (extract_rar Scenario.evil_rar Scenario.entered).2 !! ["tmp"; "evil.txt"] =
     Some (File "x") ∧
   fs (extract_rar Scenario.evil_rar Scenario.entered).2 !! ["etc"; "cron.d"; "job"] =
     Some (File "y")) ∧
  ¬ under (location Scenario.root) ["tmp"; "evil.txt"] ∧
  ¬ under (location Scenario.root) ["etc"; "cron.d"; "job"].
Proof.
  split; [|split; [|split; [|split]]].
  - intros d es acc member s names s' Hd Hm H.
    apply (extract_entry_Ok _ _ _ _ _ _ d Hd) in H as [_ H]. rewrite Hm in H.
    destruct H as [_ H]. apply store_step_stat in H.
    by apply stat_file_location in H.
  - repeat split; vm_compute; reflexivity.
  - repeat split; vm_compute; reflexivity.
  - intros [k E]. vm_compute in E. discriminate.
  - intros [k E]. vm_compute in E. discriminate.
Qed.

Lemma extraction_is_not_contained_witness :
  fs (extract_entry Scenario.evil_entries [] "../evil.txt" Scenario.entered).2
    !! ["tmp"; "evil.txt"] = Some (File "x").
Proof.
  assert (E : (extract_entry Scenario.evil_entries [] "../evil.txt"
                 Scenario.entered).1 = Ok ["../evil.txt"])
    by (vm_compute; reflexivity).
  exact (proj1 extraction_is_not_contained Scenario.root Scenario.evil_entries
           [] "../evil.txt" Scenario.entered _ _ eq_refl eq_refl
           (pair_eta_fst _ _ E)).
Defined.

(** * The order of paths *)

Section Lex.
Context {A : Type} (ltb : A → A → bool).
Hypothesis ltb_irrefl : ∀ a, ltb a a = false.
Hypothesis ltb_trans : ∀ a b c, ltb a b = true → ltb b c = true → ltb a c = true.
Hypothesis ltb_total : ∀ a b, ltb a b = false → ltb b a = false → a = b.

Lemma ltb_asym a b : ltb a b = true → ltb b a = false.
Proof.
  intros H. destruct (ltb b a) eqn:E; [|done].
  by rewrite <- (ltb_irrefl a), (ltb_trans _ _ _ H E).
Qed.

Lemma lex_irrefl l : lex_ltb ltb l l = false.
Proof. induction l as [|a l IH]; cbn; [done|]. by rewrite ltb_irrefl. Qed.

Lemma lex_trans l1 l2 l3 :
  lex_ltb ltb l1 l2 = true → lex_ltb ltb l2 l3 = true → lex_ltb ltb l1 l3 = true.
Proof.
  revert l2 l3. induction l1 as [|a l1 IH]; intros [|b l2] [|c l3]; cbn; try done.
  destruct (ltb a b) eqn:Eab.
  - intros _. destruct (ltb b c) eqn:Ebc.
    + by rewrite (ltb_trans _ _ _ Eab Ebc).
    + destruct (ltb c b) eqn:Ecb; [done|].
      rewrite <- (ltb_total _ _ Ebc Ecb). by rewrite Eab.
  - destruct (ltb b a) eqn:Eba; [done|].
    rewrite <- (ltb_total _ _ Eab Eba). intros H12.
    destruct (ltb a c); [done|]. destruct (ltb c a); [done|]. eauto.
Qed.

Lemma lex_total l1 l2 :
  lex_ltb ltb l1 l2 = false → lex_ltb ltb l2 l1 = false → l1 = l2.
Proof.
  revert l2. induction l1 as [|a l1 IH]; intros [|b l2]; cbn; try done.
  destruct (ltb a b) eqn:Eab; [done|]. destruct (ltb b a) eqn:Eba; [done|].
  rewrite (ltb_total _ _ Eab Eba). intros. f_equal. auto.
Qed.

End Lex.

Lemma ascii_ltb_irrefl a : ascii_ltb a a = false.
Proof. apply N.ltb_irrefl. Qed.

Lemma ascii_ltb_trans a b c :
  ascii_ltb a b = true → ascii_ltb b c = true → ascii_ltb a c = true.
Proof. unfold ascii_ltb. rewrite !N.ltb_lt. lia. Qed.

Lemma ascii_ltb_total a b : ascii_ltb a b = false → ascii_ltb b a = false → a = b.
Proof.
  unfold ascii_ltb. rewrite !N.ltb_ge. intros H1 H2.
  rewrite <- (ascii_N_embedding a), <- (ascii_N_embedding b). f_equal. lia.
Qed.

Lemma str_ltb_irrefl s : str_ltb s s = false.
Proof. apply lex_irrefl, ascii_ltb_irrefl. Qed.

Lemma str_ltb_trans a b c :
  str_ltb a b = true → str_ltb b c = true → str_ltb a c = true.
Proof.
  unfold str_ltb. apply lex_trans.
  - exact ascii_ltb_trans.
  - exact ascii_ltb_total.
Qed.

Lemma str_ltb_total a b : str_ltb a b = false → str_ltb b a = false → a = b.
Proof.
  intros H1 H2.
  rewrite <- (string_of_list_ascii_of_string a), <- (string_of_list_ascii_of_string b).
  f_equal. revert H1 H2. apply lex_total. exact ascii_ltb_total.
Qed.

Lemma path_ltb_irrefl p : PurePath.ltb p p = false.
Proof. apply lex_irrefl, str_ltb_irrefl. Qed.

Lemma path_ltb_trans p q r :
  PurePath.ltb p q = true → PurePath.ltb q r = true → PurePath.ltb p r = true.
Proof.
  unfold PurePath.ltb. apply lex_trans.
  - exact str_ltb_trans.
  - exact str_ltb_total.
Qed.

Lemma path_ltb_total p q :
  PurePath.ltb p q = false → PurePath.ltb q p = false → p = q.
Proof. unfold PurePath.ltb. apply lex_total. exact str_ltb_total. Qed.


Lemma path_ltb_asym p q : PurePath.ltb p q = true → PurePath.ltb q p = false.
Proof. exact (ltb_asym PurePath.ltb path_ltb_irrefl path_ltb_trans p q). Qed.

Lemma path_le_trans : Transitive PurePath.le.
Proof.
  intros p q r Hpq Hqr. unfold PurePath.le in *.
  destruct (PurePath.ltb r p) eqn:E; [|done].
  destruct (PurePath.ltb p q) eqn:Epq.
  - by rewrite (path_ltb_trans _ _ _ E Epq) in Hqr.
  - rewrite (path_ltb_total _ _ Epq Hpq) in E. congruence.
Qed.

Lemma path_le_antisym : AntiSymm (=) PurePath.le.
Proof. intros p q Hpq Hqp. by apply path_ltb_total. Qed.

Lemma path_le_total p q : PurePath.le p q ∨ PurePath.le q p.
Proof.
  unfold PurePath.le. destruct (PurePath.ltb q p) eqn:E; [|by left].
  right. by apply path_ltb_asym.
Qed.

(** * [sorted] *)

Lemma insert_sorted_Permutation x l : insert_sorted x l ≡ₚ x :: l.
Proof.
  induction l as [|y l IH]; cbn; [done|].
  destruct (PurePath.ltb y x); [|done]. rewrite IH. apply Permutation_swap.
Qed.

Lemma sorted_Permutation l : sorted l ≡ₚ l.
Proof.
  induction l as [|x l IH]; cbn; [done|].
  by rewrite insert_sorted_Permutation, IH.
Qed.

Lemma insert_sorted_HdRel a x l :
  PurePath.le a x → HdRel PurePath.le a l → HdRel PurePath.le a (insert_sorted x l).
Proof.
  intros Hax H. destruct H as [|y l Hy]; cbn; [by constructor|].
  destruct (PurePath.ltb y x); by constructor.
Qed.

Lemma insert_sorted_Sorted x l :
  Sorted PurePath.le l → Sorted PurePath.le (insert_sorted x l).
Proof.
  induction 1 as [|y l Hl IH Hy]; cbn; [by repeat constructor|].
  destruct (PurePath.ltb y x) eqn:E.
  - constructor; [done|]. apply insert_sorted_HdRel; [|done].
    unfold PurePath.le. by apply path_ltb_asym.
  - constructor; [by constructor|]. by constructor.
Qed.

Lemma sorted_Sorted l : Sorted PurePath.le (sorted l).
Proof.
  induction l as [|x l IH]; cbn; [constructor | by apply insert_sorted_Sorted].
Qed.

(** the order of the records does not matter to [sorted] *)
Lemma sorted_perm l1 l2 : l1 ≡ₚ l2 → sorted l1 = sorted l2.
Proof.
  intros H.
  apply (@Sorted_unique _ PurePath.le path_le_trans path_le_antisym);
    auto using sorted_Sorted.
  by rewrite !sorted_Permutation.
Qed.

(** * Paths relative to the root *)

Lemma is_prefixb_app d p : PurePath.is_prefixb d p = true → p = d ++ drop (length d) p.
Proof.
  revert p. induction d as [|a d IH]; intros [|b p]; cbn; try done.
  intros H. apply andb_true_iff in H as [H1 H2].
  apply String.eqb_eq in H1 as ->. f_equal. auto.
Qed.

Lemma relative_to_Some p d r : PurePath.relative_to p d = Some r → p = d ++ r.
Proof.
  unfold PurePath.relative_to. destruct d as [|a d].
  - destruct (PurePath.has_root p); [done|]. by intros [= <-].
  - destruct (PurePath.is_prefixb (a :: d) p) eqn:E; [|done].
    intros [= <-]. by apply is_prefixb_app.
Qed.

Lemma is_prefixb_refl_app d q : PurePath.is_prefixb d (d ++ q) = true.
Proof. induction d as [|a d IH]; cbn; [done|]. by rewrite String.eqb_refl. Qed.


Lemma truediv_relative d n :
  PurePath.has_root (PurePath.parse n) = false →
  PurePath.truediv d n = d ++ PurePath.parse n.
Proof. unfold PurePath.truediv, PurePath.joinpath. by intros ->. Qed.

Lemma manifest_files d f files ms :
  manifest d f files = Ok ms → files = map (app d) (map arcname ms).
Proof.
  revert ms. induction files as [|p files IH]; intros ms; cbn.
  - by intros [= <-].
  - destruct (PurePath.relative_to p d) eqn:Hr; [|done].
    destruct (FS.stat f p); [|done].
    destruct (manifest d f files); [|done].
    intros [= <-]. cbn. f_equal; [by apply relative_to_Some | auto].
Qed.


Lemma map_drop_app d (l : list Path) : map (drop (length d)) (map (app d) l) = l.
Proof.
  induction l as [|p l IH]; cbn; [done|]. by rewrite drop_app_length, IH.
Qed.

Lemma Permutation_app_inv_map d (l1 l2 : list Path) :
  map (app d) l1 ≡ₚ map (app d) l2 → l1 ≡ₚ l2.
Proof.
  intros H. apply (Permutation_map (drop (length d))) in H.
  by rewrite !map_drop_app in H.
Qed.

(** ** C5 *)

(** what a merge that returns wrote, in terms of its inputs *)
Lemma merge_manifest output_path level fresh ins t c f out r s' o :
  supported_output t →
  merge output_path level fresh ins t c f out = (Ok r, s') →
  out_file s' = Some o →
  sorted (map (PurePath.truediv fresh) (flat_map file_names ins)) =
    map (app fresh) (map arcname (members o)).
Proof.
  intros Ht H Ho. apply merge_Ok in H as (s1 & s2 & Hd & H & Ho2).
  apply (process_archives_Ok fresh) in H
    as (_ & _ & He & _ & _ & o' & Ho' & Hm); [|done].
  assert (o' = o) as -> by congruence.
  rewrite <- He. eapply manifest_files. eauto.
Qed.

Lemma map_truediv_relative d names :
  Forall (λ n, PurePath.has_root (PurePath.parse n) = false) names →
  map (PurePath.truediv d) names = map (app d) (map PurePath.parse names).
Proof.
  induction 1 as [|n names Hn _ IH]; cbn; [done|].
  by rewrite IH, truediv_relative.
Qed.

Lemma truediv_rooted d n :
  PurePath.has_root (PurePath.parse n) = true →
  PurePath.truediv d n = PurePath.parse n.
Proof. unfold PurePath.truediv, PurePath.joinpath. by intros ->. Qed.









(** ** C4 *)








(** * Progress accounting *)

Lemma str_in_tar_suffixes ext :
  str_in ext tar_suffixes = true →
  ext = ".tar" ∨ ext = ".tgz" ∨ ext = ".tar.gz" ∨ ext = ".tbz2" ∨ ext = ".tar.bz2".
Proof.
  unfold str_in, tar_suffixes. cbn [existsb]. intros H.
  repeat (apply orb_true_iff in H as [H|H]; [apply String.eqb_eq in H; auto 10|]).
  done.
Qed.







(** * What the output is made of *)

Lemma plain_part_spec c :
  plain_part c = true → PurePath.is_root c = false ∧ String.eqb c ".." = false.
Proof.
  unfold plain_part. intros [H1 H2]%andb_true_iff.
  by apply negb_true_iff in H1, H2.
Qed.

Lemma plain_name_parts n :
  plain_name n = true →
  PurePath.parse n ≠ [] ∧ forallb plain_part (PurePath.parse n) = true.
Proof. unfold plain_name. by destruct (PurePath.parse n). Qed.

Lemma plain_name_relative n :
  plain_name n = true → PurePath.has_root (PurePath.parse n) = false.
Proof.
  intros [_ H]%plain_name_parts. destruct (PurePath.parse n) as [|c p]; [done|].
  cbn in *. apply andb_true_iff in H as [H _]. by apply plain_part_spec in H as [? _].
Qed.

(** the example merge in a tree that has the directory of the output *)
Lemma home_tgz_result :
  (merge Scenario.out 6 Scenario.root [Scenario.a_zip; Scenario.b_tgz]
     "zip" "deflate" Cases.home_tree None).1 = Ok Scenario.result_tgz.
Proof. vm_compute. reflexivity. Qed.

Lemma home_tgz_output :
  out_file (merge Scenario.out 6 Scenario.root [Scenario.a_zip; Scenario.b_tgz]
              "zip" "deflate" Cases.home_tree None).2 = Some Scenario.merged_tgz.
Proof. vm_compute. reflexivity. Qed.

(** X2. The members of the output of a merge that returns are the
    non-directory members of the inputs, once each per occurrence:
    nothing is lost and nothing is added. Stated for inputs that cannot
    write over the output (plain member names, and an output path that
    is not below the extraction root); for these the name the program
    hands to the writer is the name the writer stores, and it is the
    parsed member name. *)
Theorem output_members_are_input_members
    output_path level fresh ins t c f out r s' o :
  supported_output t →
  clear_of_output fresh output_path ins →
  merge output_path level fresh ins t c f out = (Ok r, s') →
  out_file s' = Some o →
  map arcname (members o) ≡ₚ map PurePath.parse (flat_map file_names ins).
Proof.
  intros Ht [Hp _] H Ho.
  pose proof (merge_manifest _ _ _ _ _ _ _ _ _ _ _ Ht H Ho) as E.
  apply (Permutation_app_inv_map fresh).
  rewrite <- E, sorted_Permutation, map_truediv_relative; [done|].
  eapply Forall_impl; [exact Hp|]. intros n. apply plain_name_relative.
Qed.

Lemma output_members_are_input_members_witness :
  map arcname (members Scenario.merged_tgz) ≡ₚ
    map PurePath.parse
      (flat_map file_names [Scenario.a_zip; Scenario.b_tgz]).
Proof.
  refine (output_members_are_input_members _ _ _ _ "zip" _ _ _ _ _ _
            (or_introl eq_refl) _ (pair_eta_fst _ _ home_tgz_result) home_tgz_output).
  split; [repeat constructor|]. intros [q Hq]. discriminate.
Defined.

(** X10. A member with an absolute name that does not lie below the
    extraction root makes the merge raise, for each of the four output
    formats: its record cannot be named relative to the root when the
    output is written. *)
Theorem absolute_member_fails_merge
    output_path level fresh ins t c f out r s' a n :
  supported_output t →
  In a ins → In n (file_names a) →
  PurePath.has_root (PurePath.parse n) = true →
  PurePath.is_prefixb fresh (PurePath.parse n) = false →
  merge output_path level fresh ins t c f out = (r, s') →
  ∃ e, r = Raise e.
Proof.
  intros Ht Ha Hn Hroot Hpre H. destruct r as [r|e]; [|eauto]. exfalso.
  destruct (merge_Ok _ _ _ _ _ _ _ _ _ _ H) as (s1 & s2 & Hd & H2 & Ho2).
  destruct (process_archives_Ok _ _ _ _ _ _ _ Hd H2)
    as (_ & _ & _ & _ & _ & o & Ho & _).
  rewrite <- Ho2 in Ho.
  pose proof (merge_manifest _ _ _ _ _ _ _ _ _ _ _ Ht H Ho) as E.
  assert (In (PurePath.parse n) (map (app fresh) (map arcname (members o)))) as Hin.
  { rewrite <- E. apply list_elem_of_In. rewrite sorted_Permutation.
    apply list_elem_of_In. rewrite <- (truediv_rooted fresh n Hroot).
    apply in_map. apply in_flat_map. eauto. }
  apply in_map_iff in Hin as (q & Hq & _).
  by rewrite <- Hq, is_prefixb_refl_app in Hpre.
Qed.

Lemma absolute_member_fails_merge_witness :
  ∃ e, (Scenario.run [Scenario.evil_zip]).1 = Raise e.
Proof.
  refine (absolute_member_fails_merge Scenario.out 6 Scenario.root
            [Scenario.evil_zip] "zip" "deflate" Scenario.tmp None _ _
            Scenario.evil_zip
            "/etc/cron.d/job" (or_introl eq_refl) (or_introl eq_refl) _
            eq_refl eq_refl (surjective_pairing _)).
  right. by left.
Defined.




(** * What a merge leaves alone *)

Lemma dir_location_lex f p l : FS.dir_location f p = Some l → l = location p.
Proof.
  unfold FS.dir_location. destruct (FS.walk f [] p) eqn:W; [|done].
  intros [= <-]. by apply walk_lex in W.
Qed.

Lemma rmtree_keeps f p k :
  ¬ under (location p) k → FS.rmtree f p !! k = f !! k.
Proof.
  intros Hk. unfold FS.rmtree. destruct (FS.dir_location f p) as [l|] eqn:E; [|done].
  apply dir_location_lex in E as ->.
  destruct (f !! k) as [n|] eqn:Ek.
  - by apply map_lookup_filter_Some.
  - apply map_lookup_filter_None. by left.
Qed.

Lemma exit_keeps s r s' k :
  exit_ s = (r, s') →
  (∀ p, temp_dir (self s) = Some p → ¬ under (location p) k) →
  fs s' !! k = fs s !! k.
Proof.
  unfold exit_, bind, gets, modify, ret. destruct (temp_dir (self s)) as [p|].
  - destruct (FS.exists_ (fs s) p); intros [= <- <-] Hk; [|done].
    cbn. apply rmtree_keeps. by apply Hk.
  - by intros [= <- <-].
Qed.

(** X4. A merge, whether it returns or raises, removes nothing outside
    its extraction root and never turns a file into a directory or a
    directory into a file: every node that was outside the root before
    is there afterwards, with its kind. *)
Theorem merge_keeps_nodes_outside_root
    output_path level fresh ins t c f out r s' k n :
  merge output_path level fresh ins t c f out = (r, s') →
  f !! k = Some n → ¬ under (location fresh) k →
  ∃ n', fs s' !! k = Some n' ∧ same_kind n n'.
Proof.
  unfold merge. intros H Hk Hout. apply with_merger_run in H. cbn [fs] in H.
  destruct (FS.os_mkdir f fresh) as [f1|e] eqn:E.
  - destruct H as (s2 & u & B & X).
    apply grows_process_archives in B as [Hle Ht]. cbn in Hle, Ht.
    rewrite (exit_keeps _ _ _ k X).
    + apply (fs_le_trans _ _ _ (os_mkdir_le _ _ _ E) Hle). done.
    + intros p Hp. rewrite Ht in Hp. by injection Hp as <-.
  - destruct H as [_ ->]. cbn. eauto using same_kind_refl.
Qed.

Lemma merge_keeps_nodes_outside_root_witness :
  ∃ n', fs (Scenario.run [Scenario.evil_zip]).2 !! ["tmp"] = Some n' ∧ same_kind Dir n'.
Proof.
  refine (merge_keeps_nodes_outside_root _ _ _ _ _ _ _ _ _ _ ["tmp"] Dir
            (surjective_pairing _) _ _).
  - vm_compute. reflexivity.
  - intros [k E]. vm_compute in E. discriminate.
Defined.

(** * Edge cases of extraction *)

Lemma extract_entries_no_files es l acc s :
  List.filter not_dir_name l = [] →
  for_fold l acc (extract_entry es) s = (Ok acc, s).
Proof.
  revert acc. induction l as [|m l IH]; intros acc; cbn; [done|].
  unfold bind at 1. unfold extract_entry at 1. fold (not_dir_name m).
  destruct (not_dir_name m); [done|]. unfold ret at 1. apply IH.
Qed.

Lemma extract_tarinfos_no_files l acc s :
  List.filter isfile l = [] →
  for_fold l acc extract_tarinfo s = (Ok acc, s).
Proof.
  revert acc. induction l as [|m l IH]; intros acc; cbn; [done|].
  unfold bind at 1. unfold extract_tarinfo at 1.
  destruct (isfile m); [done|]. unfold ret at 1. apply IH.
Qed.

(** how a readable input is dispatched *)
Lemma extract_by_suffix_readable_eq a :
  readable a →
  extract_by_suffix a =
  match stored a with
  | ZipC es | RarC es => for_fold (namelist es) [] (extract_entry es)
  | TarC ms => for_fold ms [] extract_tarinfo
  | _ => extract_by_suffix a
  end.
Proof.
  unfold readable, extract_by_suffix.
  intros [[E (es & Hs)] | [[E (es & Hs)] | [E (ms & Hs)]]]; rewrite Hs.
  - rewrite E. unfold extract_rar, open_rar. by rewrite Hs.
  - rewrite E. unfold extract_zip, open_zip. by rewrite Hs.
  - apply str_in_tar_suffixes in E as [E | [E | [E | [E | E]]]]; rewrite E;
      unfold extract_tar, open_tar; by rewrite Hs.
Qed.

(** X5. An input with no regular-file member (only directory entries,
    or in a tar only directories, links and the like) extracts to
    nothing: the call returns the empty list and the state is untouched,
    so empty directories of the inputs never reach the output. *)
Theorem directories_are_not_extracted a s :
  readable a → file_names a = [] →
  extract_by_suffix a s = (Ok [], s).
Proof.
  intros Hr Hn. rewrite (extract_by_suffix_readable_eq _ Hr).
  unfold file_names in Hn. destruct Hr as [[_ (es & Hs)] | [[_ (es & Hs)] | [_ (ms & Hs)]]];
    rewrite Hs in *.
  - by apply extract_entries_no_files.
  - by apply extract_entries_no_files.
  - apply extract_tarinfos_no_files. by destruct (List.filter isfile ms).
Qed.

Lemma directories_are_not_extracted_witness :
  extract_by_suffix Cases.dirs_zip Scenario.entered = (Ok [], Scenario.entered) ∧
  extract_by_suffix Cases.links_tar Scenario.entered = (Ok [], Scenario.entered).
Proof.
  split; apply directories_are_not_extracted; try reflexivity.
  - right. left. split; [reflexivity | by eexists].
  - right. right. split; [reflexivity | by eexists].
Defined.

Lemma extract_entries_no_root es l acc s :
  temp_dir (self s) = None → List.filter not_dir_name l ≠ [] →
  for_fold l acc (extract_entry es) s = (Raise TypeError, s).
Proof.
  intros Hd. revert acc. induction l as [|m l IH]; intros acc; cbn; [done|].
  unfold bind at 1. unfold extract_entry at 1. fold (not_dir_name m).
  destruct (not_dir_name m).
  - intros _. unfold bind at 1. unfold the_temp_dir, bind, gets. by rewrite Hd.
  - intros Hl. unfold ret at 1. by apply IH.
Qed.

Lemma extract_tarinfos_no_root l acc s :
  temp_dir (self s) = None → List.filter isfile l ≠ [] →
  for_fold l acc extract_tarinfo s = (Raise TypeError, s).
Proof.
  intros Hd. revert acc. induction l as [|m l IH]; intros acc; cbn; [done|].
  unfold bind at 1. unfold extract_tarinfo at 1.
  destruct (isfile m).
  - intros _. unfold bind at 1. unfold the_temp_dir, bind, gets. by rewrite Hd.
  - intros Hl. unfold ret at 1. by apply IH.
Qed.

(** X6. On a merger that was not entered with [with] ([temp_dir] is
    still [None]) extracting an input that has a regular-file member
    raises [TypeError] at the first such member, before anything is
    written: the state is untouched. *)
Theorem extraction_needs_the_root a s :
  temp_dir (self s) = None → readable a → file_names a ≠ [] →
  extract_by_suffix a s = (Raise TypeError, s).
Proof.
  intros Hd Hr Hn. rewrite (extract_by_suffix_readable_eq _ Hr).
  unfold file_names in Hn. destruct Hr as [[_ (es & Hs)] | [[_ (es & Hs)] | [_ (ms & Hs)]]];
    rewrite Hs in *.
  - by apply extract_entries_no_root.
  - by apply extract_entries_no_root.
  - apply extract_tarinfos_no_root; [done|]. by destruct (List.filter isfile ms).
Qed.

Lemma extraction_needs_the_root_witness :
  extract_by_suffix Scenario.a_zip Cases.unentered = (Raise TypeError, Cases.unentered).
Proof.
  apply extraction_needs_the_root; [reflexivity | | discriminate].
  right. left. split; [reflexivity | by eexists].
Defined.

(** X8. With no input at all and one of the four output formats, a call
    of [process_archives] that returns reports no input and no file and
    has left an empty container at the output path, replacing what was
    there; the tree is untouched. *)
Theorem merging_nothing_writes_an_empty_archive t c s r s' :
  supported_output t →
  process_archives [] t c s = (Ok r, s') →
  r = {| success := true; output_file := output_path (self s);
         total_input_files := 0; total_extracted_files := 0 |} ∧
  (∃ fmt, out_file s' = Some {| format := fmt; members := [] |}) ∧
  fs s' = fs s.
Proof.
  intros [-> | [-> | [-> | ->]]] [= <- <-]; (split; [reflexivity|]); split; eauto.
Qed.

Lemma merging_nothing_writes_an_empty_archive_witness :
  ∃ fmt, out_file (process_archives [] "tar.gz" "gzip" Cases.entered_over_old).2 =
           Some {| format := fmt; members := [] |}.
Proof.
  exact (proj1 (proj2 (merging_nothing_writes_an_empty_archive "tar.gz" "gzip"
           Cases.entered_over_old _ _ (or_intror (or_intror (or_introl eq_refl)))
           (pair_eta_fst _ _ eq_refl)))).
Defined.

(** * The output path *)

Lemma same_out_refl s : same_out s s.
Proof. done. Qed.

Lemma same_out_trans s1 s2 s3 : same_out s1 s2 → same_out s2 s3 → same_out s1 s3.
Proof. unfold same_out. congruence. Qed.

#[export] Hint Resolve same_out_refl same_out_trans : keeps.

Lemma same_out_fs_update op : keeps same_out (fs_update op).
Proof.
  intros s r s'. unfold fs_update. destruct (op (fs s)); by intros [= <- <-].
Qed.

(** probing and extracting never touch the file at the output path *)
Lemma same_out_probe_all ins : keeps same_out (probe_all ins).
Proof. unfold probe_all, probe_add, probe. keeps_auto. Qed.

Lemma same_out_extract_all ins : keeps same_out (extract_all ins).
Proof.
  unfold extract_all, extract_one, extract_by_suffix, extract_rar, extract_zip,
    extract_tar, record_extracted, record_one.
  keeps_auto; try done.
  all: unfold extract_entry, extract_tarinfo; keeps_auto.
  all: apply same_out_fs_update.
Qed.

Lemma create_unknown t c :
  ¬ supported_output t → create_output_archive t c = ret tt.
Proof.
  intros H. unfold create_output_archive, supported_output in *.
  destruct (String.eqb_spec t "zip"); [tauto|].
  destruct (String.eqb_spec t "tar"); [tauto|].
  destruct (String.eqb_spec t "tar.gz"); [tauto|].
  destruct (String.eqb_spec t "tar.bz2"); [tauto|]. done.
Qed.

(** * Where a bad input is found *)

Lemma probe_pure a : keeps unchanged (probe a).
Proof. unfold probe. keeps_auto. Qed.

Lemma probe_unreadable a s :
  recognised (lower (PurePath.suffix (apath a))) → ¬ readable a →
  ∃ e, probe a s = (Raise e, s).
Proof.
  intros Hrec Hn. destruct (probe a s) as [[n|e] s1] eqn:E.
  2:{ pose proof (probe_pure _ _ _ _ E) as ->. eauto. }
  exfalso. apply Hn. unfold probe, readable in *.
  destruct (String.eqb_spec (lower (PurePath.suffix (apath a))) ".rar") as [E1|E1].
  { apply bind_Ok in E as (es & s2 & E & _). apply lift_Ok in E as [E _].
    unfold open_rar in E. destruct (stored a); try done. eauto. }
  destruct (String.eqb_spec (lower (PurePath.suffix (apath a))) ".zip") as [E2|E2].
  { apply bind_Ok in E as (es & s2 & E & _). apply lift_Ok in E as [E _].
    unfold open_zip in E. destruct (stored a); try done. eauto 6. }
  destruct (str_in (lower (PurePath.suffix (apath a))) tar_suffixes) eqn:E3.
  { apply bind_Ok in E as (es & s2 & E & _). apply lift_Ok in E as [E _].
    unfold open_tar in E. destruct (stored a); try done. eauto 6. }
  destruct Hrec as [? | [? | ?]]; congruence.
Qed.

Lemma probe_all_raises ins a s :
  In a ins → (∃ e, probe a s = (Raise e, s)) →
  ∃ e, probe_all ins s = (Raise e, s).
Proof.
  intros Hin Ha. unfold probe_all. generalize 0.
  induction ins as [|b ins IH]; intros n; [done|]. cbn.
  unfold bind at 1. unfold probe_add at 1. unfold bind at 1.
  destruct (probe b s) as [[m|e] s1] eqn:E;
    pose proof (probe_pure _ _ _ _ E) as ->; [|eauto].
  unfold ret at 1. destruct Hin as [->|Hin]; [|by apply IH].
  destruct Ha as (e & Ha). congruence.
Qed.

(** X11. An input whose extension is recognised but which cannot be
    opened (no such file, or not an archive of that kind) is found while
    probing: [process_archives] raises before anything is extracted or
    written, with the tree and the output file untouched. *)
Theorem unreadable_input_is_found_by_probing ins t c s r s' a :
  In a ins →
  recognised (lower (PurePath.suffix (apath a))) → ¬ readable a →
  process_archives ins t c s = (r, s') →
  (∃ e, r = Raise e) ∧ fs s' = fs s ∧ out_file s' = out_file s.
Proof.
  intros Hin Hrec Hn H. unfold process_archives in H.
  unfold bind at 1 in H. unfold modify at 1 in H.
  destruct (probe_all_raises ins a (with_self (set_extracted_files []) s) Hin
              (probe_unreadable _ _ Hrec Hn)) as (e & E).
  unfold bind at 1 in H. rewrite E in H. injection H as <- <-. eauto.
Qed.

Lemma unreadable_input_is_found_by_probing_witness :
  (∃ e, (process_archives [Scenario.a_zip; Cases.junk_zip] "zip" "deflate"
           Scenario.entered).1 = Raise e) ∧
  fs (process_archives [Scenario.a_zip; Cases.junk_zip] "zip" "deflate"
        Scenario.entered).2 = fs Scenario.entered.
Proof.
  assert (¬ readable Cases.junk_zip) as Hn.
  { intros [[_ (es & H)] | [[_ (es & H)] | [_ (ms & H)]]]; discriminate. }
  destruct (unreadable_input_is_found_by_probing [Scenario.a_zip; Cases.junk_zip]
              "zip" "deflate" Scenario.entered _ _ Cases.junk_zip
              (or_intror (or_introl eq_refl)) (or_intror (or_introl eq_refl)) Hn
              (surjective_pairing _)) as (H1 & H2 & _).
  by split.
Defined.





(** * Extracting again *)





Lemma is_dir_os_mkdir g p : FS.is_dir g p = true → FS.os_mkdir g p = Raise (OSError EEXIST).
Proof.
  unfold FS.is_dir, FS.stat, FS.os_mkdir.
  destruct (FS.split_last p) as [[d c]|]; [|done].
  destruct (FS.walk g [] d) as [cur|]; [|done].
  destruct (FS.names_dir c); [done|].
  by destruct (FS.node_at g (cur ++ [c])) as [[|x]|].
Qed.











(** * Extraction below the root *)

Lemma lex_walk_plain cur q :
  forallb plain_part q = true → lex_walk cur q = cur ++ q.
Proof.
  revert cur. induction q as [|c q IH]; intros cur H; cbn in *.
  - by rewrite app_nil_r.
  - apply andb_true_iff in H as [Hc Hq].
    apply plain_part_spec in Hc as [-> ->].
    by rewrite IH, <- app_assoc.
Qed.

(** below a root that is there, plain parts lead to where they say *)
Lemma location_below f d l q :
  FS.dir_location f d = Some l → forallb plain_part q = true →
  location (d ++ q) = l ++ q.
Proof.
  intros Hd Hq. apply dir_location_lex in Hd as ->. unfold location.
  by rewrite lex_walk_app, lex_walk_plain.
Qed.

Lemma outside_same_refl l f : outside_same l f f.
Proof. by intros k _. Qed.

Lemma outside_same_trans l f1 f2 f3 :
  outside_same l f1 f2 → outside_same l f2 f3 → outside_same l f1 f3.
Proof. intros H1 H2 k Hk. by rewrite H2, H1. Qed.

Lemma outside_same_insert l f k n : under l k → outside_same l f (<[k := n]> f).
Proof.
  intros Hk k' Hk'. apply lookup_insert_ne. by intros <-.
Qed.

Lemma os_mkdir_insert f p f' : FS.os_mkdir f p = Ok f' → f' = <[location p := Dir]> f.
Proof.
  unfold FS.os_mkdir.
  destruct (FS.split_last p) as [[d c]|] eqn:S; [|done].
  destruct (FS.walk f [] d) as [cur|e] eqn:W; [|done].
  destruct (FS.names_dir c) eqn:Hc; [done|].
  destruct (FS.node_at f (cur ++ [c])); [done|]. intros [= <-].
  by rewrite (location_split _ _ _ S Hc), <- (walk_lex _ _ _ _ W).
Qed.

Lemma os_mkdir_below f d l q f' :
  FS.dir_location f d = Some l → forallb plain_part q = true →
  FS.os_mkdir f (d ++ q) = Ok f' → outside_same l f f'.
Proof.
  intros Hd Hq H. apply os_mkdir_insert in H as ->.
  rewrite (location_below _ _ _ _ Hd Hq).
  apply outside_same_insert. by exists q.
Qed.

Lemma mkdir_exist_ok_below f d l q f' :
  FS.dir_location f d = Some l → forallb plain_part q = true →
  FS.mkdir_exist_ok f (d ++ q) = Ok f' → outside_same l f f'.
Proof.
  intros Hd Hq. unfold FS.mkdir_exist_ok.
  destruct (FS.os_mkdir f (d ++ q)) as [f1|e] eqn:E.
  - intros [= <-]. eauto using os_mkdir_below.
  - destruct e as [[]| | | | | |]; try done;
      destruct (FS.is_dir f (d ++ q)); intros [= <-]; apply outside_same_refl.
Qed.

Lemma parent_below d q :
  q ≠ [] → forallb plain_part q = true →
  PurePath.parent (d ++ q) = d ++ removelast q.
Proof.
  intros Hne Hq. destruct d as [|x d].
  - cbn. destruct q as [|a [|b q]]; [done| |done].
    cbn in Hq. apply andb_true_iff in Hq as [Ha _].
    apply plain_part_spec in Ha as [Ha _]. cbn. by rewrite Ha.
  - rewrite <- removelast_app by done. cbn.
    destruct (d ++ q) eqn:E; [|done].
    by apply app_eq_nil in E as [_ ->].
Qed.

Lemma plain_removelast q :
  forallb plain_part q = true → forallb plain_part (removelast q) = true.
Proof.
  induction q as [|a [|b q] IH]; [done..|]. intros H.
  apply andb_true_iff in H as [Ha H].
  change (plain_part a && forallb plain_part (removelast (b :: q)) = true).
  by rewrite Ha, IH.
Qed.

Lemma dir_location_is_dir f d l : FS.dir_location f d = Some l → FS.is_dir f d = true.
Proof.
  unfold FS.dir_location, FS.is_dir.
  destruct (FS.walk f [] d) as [l0|] eqn:W; [|done]. intros _.
  by rewrite (walk_stat_dir _ _ _ W).
Qed.

(** making the parents of a target never reaches above a root that is
    there *)
Lemma mkdir_parents_aux_below n f d l q f' :
  FS.dir_location f d = Some l → forallb plain_part q = true →
  FS.mkdir_parents_aux n f (d ++ q) = Ok f' → outside_same l f f'.
Proof.
  revert f q f'. induction n as [|n IH]; intros f q f' Hd Hq; cbn;
    destruct (FS.os_mkdir f (d ++ q)) as [f1|e] eqn:E;
    try (intros [= <-]; eauto using os_mkdir_below; fail).
  - destruct e as [[]| | | | | |]; try done;
      destruct (FS.is_dir f (d ++ q)); intros [= <-]; apply outside_same_refl.
  - destruct e as [[]| | | | | |];
      try (destruct (FS.is_dir f (d ++ q)); intros [= <-];
           apply outside_same_refl; fail).
    destruct (decide (PurePath.parent (d ++ q) = d ++ q)); [done|].
    destruct q as [|a q0].
    { rewrite app_nil_r in E.
      rewrite (is_dir_os_mkdir _ _ (dir_location_is_dir _ _ _ Hd)) in E. done. }
    rewrite parent_below by done.
    destruct (FS.mkdir_parents_aux n f (d ++ removelast (a :: q0)))
      as [f1|e1] eqn:E1; [|done].
    intros H. eapply outside_same_trans.
    + eapply IH; [exact Hd | by apply plain_removelast | exact E1].
    + eapply mkdir_exist_ok_below; [|exact Hq|exact H].
      eapply dir_location_le; [|exact Hd].
      eauto using fs_le_subseteq, mkdir_parents_aux_sub.
Qed.

Lemma write_file_below f d l q data f' :
  FS.dir_location f d = Some l → forallb plain_part q = true →
  FS.write_file f (d ++ q) data = Ok f' → outside_same l f f'.
Proof.
  intros Hd Hq H. apply write_file_spec in H as (-> & _ & _).
  rewrite (location_below _ _ _ _ Hd Hq).
  apply outside_same_insert. by exists q.
Qed.

Lemma truediv_plain d n :
  plain_name n = true → PurePath.truediv d n = d ++ PurePath.parse n.
Proof.
  intros H. unfold PurePath.truediv, PurePath.joinpath.
  by rewrite (plain_name_relative _ H).
Qed.

(** one write of an extractor with a plain name stays below the root *)
Lemma store_below f d l n data f1 f' :
  FS.dir_location f d = Some l → plain_name n = true →
  FS.mkdir_parents f (PurePath.parent (PurePath.truediv d n)) = Ok f1 →
  FS.write_file f1 (PurePath.truediv d n) data = Ok f' →
  outside_same l f f'.
Proof.
  intros Hd Hn. rewrite (truediv_plain _ _ Hn).
  apply plain_name_parts in Hn as [Hne Hq].
  rewrite parent_below by done. unfold FS.mkdir_parents. intros H1 H2.
  eapply outside_same_trans.
  - eapply mkdir_parents_aux_below; [exact Hd | by apply plain_removelast | exact H1].
  - eapply write_file_below; [|exact Hq|exact H2].
    eapply dir_location_le; [|exact Hd].
    eauto using fs_le_subseteq, mkdir_parents_aux_sub.
Qed.

Lemma contained_refl d l s : contained d l s s.
Proof. split; [apply grows_refl|]. intros _ _. apply outside_same_refl. Qed.

Lemma contained_trans d l s1 s2 s3 :
  contained d l s1 s2 → contained d l s2 s3 → contained d l s1 s3.
Proof.
  intros [G1 C1] [G2 C2]. split; [eauto using grows_trans|].
  intros Hd Hl. destruct G1 as [Hle Ht].
  eapply outside_same_trans; [by apply C1|]. apply C2; [congruence|].
  eauto using dir_location_le.
Qed.

#[export] Hint Resolve contained_refl contained_trans : keeps.

(** a step that leaves the tree alone *)
Lemma contained_same_fs d l {A} (m : M A) :
  keeps grows m → keeps same_fs m → keeps (contained d l) m.
Proof.
  intros Hg Hs s r s' H. split; [eauto|]. intros _ _.
  rewrite (Hs _ _ _ H). apply outside_same_refl.
Qed.

Lemma keeps_for_fold_In R {A B} (l : list A) (b : B) body :
  (∀ s, R s s) → (∀ s1 s2 s3, R s1 s2 → R s2 s3 → R s1 s3) →
  (∀ b x, In x l → keeps R (body b x)) → keeps R (for_fold l b body).
Proof.
  intros Hr Ht. revert b. induction l as [|x l IH]; intros b Hb; cbn.
  - by apply keeps_ret.
  - apply keeps_bind; [done..| |].
    + apply Hb. by left.
    + intros b'. apply IH. intros ? ? ?. apply Hb. by right.
Qed.

Lemma keeps_for_each_In R {A} (l : list A) body :
  (∀ s, R s s) → (∀ s1 s2 s3, R s1 s2 → R s2 s3 → R s1 s3) →
  (∀ x, In x l → keeps R (body x)) → keeps R (for_each l body).
Proof.
  intros Hr Ht. induction l as [|x l IH]; intros Hb; cbn.
  - by apply keeps_ret.
  - apply keeps_bind; [done..| |].
    + apply Hb. by left.
    + intros _. apply IH. intros ? ?. apply Hb. by right.
Qed.

Lemma contained_extract_entry d l es acc m :
  endswith m "/" = true ∨ plain_name m = true →
  keeps (contained d l) (extract_entry es acc m).
Proof.
  intros Hm s r s' H. split.
  { revert H. generalize s r s'. change (keeps grows (extract_entry es acc m)).
    unfold extract_entry. keeps_auto. }
  intros Hd Hl. unfold extract_entry in H.
  destruct (endswith m "/") eqn:Em; cbn in H.
  { injection H as _ <-. apply outside_same_refl. }
  destruct Hm as [|Hm]; [done|].
  unfold the_temp_dir, bind, gets, ret, fs_update in H. rewrite Hd in H.
  destruct (FS.mkdir_parents (fs s) _) as [f1|e] eqn:E1.
  2:{ injection H as _ <-. apply outside_same_refl. }
  cbn [fs with_fs] in H.
  assert (outside_same l (fs s) f1 ∧ FS.dir_location f1 d = Some l) as [O1 Hl1].
  { apply plain_name_parts in Hm as [Hne Hq]. split.
    - rewrite truediv_plain, parent_below in E1
        by (done || (unfold plain_name; by destruct (PurePath.parse m))).
      eapply mkdir_parents_aux_below; [exact Hl | by apply plain_removelast | exact E1].
    - eapply dir_location_le; [|exact Hl]. eauto using mkdir_parents_le. }
  destruct (read_member es m) as [data|e]; cbn in H.
  2:{ injection H as _ <-. done. }
  destruct (FS.write_file f1 _ data) as [f2|e] eqn:E2.
  2:{ injection H as _ <-. done. }
  injection H as _ <-. cbn.
  eapply outside_same_trans; [exact O1|].
  apply plain_name_parts in Hm as Hp. destruct Hp as [Hne Hq].
  rewrite truediv_plain in E2 by done.
  eapply write_file_below; [exact Hl1 | exact Hq | exact E2].
Qed.

Lemma contained_extract_tarinfo d l acc m :
  isfile m = false ∨ plain_name (tname m) = true →
  keeps (contained d l) (extract_tarinfo acc m).
Proof.
  intros Hm s r s' H. split.
  { revert H. generalize s r s'. change (keeps grows (extract_tarinfo acc m)).
    unfold extract_tarinfo. keeps_auto. }
  intros Hd Hl. unfold extract_tarinfo in H.
  destruct (isfile m) eqn:Em.
  2:{ injection H as _ <-. apply outside_same_refl. }
  destruct Hm as [|Hm]; [done|].
  unfold the_temp_dir, bind, gets, ret, fs_update in H. rewrite Hd in H.
  destruct (FS.mkdir_parents (fs s) _) as [f1|e] eqn:E1.
  2:{ injection H as _ <-. apply outside_same_refl. }
  cbn [fs with_fs] in H.
  destruct (FS.write_file f1 _ (tdata m)) as [f2|e] eqn:E2.
  2:{ injection H as _ <-. cbn.
      apply plain_name_parts in Hm as Hp. destruct Hp as [Hne Hq].
      rewrite truediv_plain, parent_below in E1 by done.
      eapply mkdir_parents_aux_below; [exact Hl | by apply plain_removelast | exact E1]. }
  injection H as _ <-. cbn. eauto using store_below.
Qed.

Lemma contained_extract_by_suffix d l a :
  Forall (λ n, plain_name n = true) (file_names a) →
  keeps (contained d l) (extract_by_suffix a).
Proof.
  intros Hp. rewrite List.Forall_forall in Hp.
  assert (∀ es, file_names a = List.filter not_dir_name (namelist es) →
            keeps (contained d l) (for_fold (namelist es) [] (extract_entry es))) as He.
  { intros es E. apply keeps_for_fold_In; [eauto with keeps..|].
    intros b m Hin. apply contained_extract_entry.
    destruct (endswith m "/") eqn:Em; [by left|]. right. apply Hp.
    rewrite E. apply filter_In. split; [done|]. unfold not_dir_name. by rewrite Em. }
  unfold extract_by_suffix, extract_rar, extract_zip, extract_tar.
  repeat apply keeps_if; [| | |apply keeps_raise; eauto with keeps].
  - intros s r s' H. apply bind_any in H as [(e & -> & H)|(es & s1 & H1 & H)].
    + apply lift_any in H as [_ ->]. apply contained_refl.
    + apply lift_any in H1 as [H1 ->]. unfold open_rar in H1.
      destruct (stored a) eqn:Es; try done. injection H1 as ->.
      eapply He; [|exact H]. unfold file_names. by rewrite Es.
  - intros s r s' H. apply bind_any in H as [(e & -> & H)|(es & s1 & H1 & H)].
    + apply lift_any in H as [_ ->]. apply contained_refl.
    + apply lift_any in H1 as [H1 ->]. unfold open_zip in H1.
      destruct (stored a) eqn:Es; try done. injection H1 as ->.
      eapply He; [|exact H]. unfold file_names. by rewrite Es.
  - intros s r s' H. apply bind_any in H as [(e & -> & H)|(ms & s1 & H1 & H)].
    + apply lift_any in H as [_ ->]. apply contained_refl.
    + apply lift_any in H1 as [H1 ->]. unfold open_tar in H1.
      destruct (stored a) eqn:Es; try done. injection H1 as ->.
      revert H. generalize s r s'.
      change (keeps (contained d l) (for_fold ms [] extract_tarinfo)).
      apply keeps_for_fold_In; [eauto with keeps..|].
      intros b m Hin. apply contained_extract_tarinfo.
      destruct (isfile m) eqn:Em; [|by left]. right. apply Hp.
      unfold file_names. rewrite Es. apply in_map. by apply filter_In.
Qed.

Lemma contained_with_self d l g s :
  (∀ m, temp_dir (g m) = temp_dir m) → contained d l s (with_self g s).
Proof.
  intros H. split; [by apply grows_with_self|]. intros _ _. apply outside_same_refl.
Qed.

Lemma contained_extract_all d l ins :
  Forall (λ n, plain_name n = true) (flat_map file_names ins) →
  keeps (contained d l) (extract_all ins).
Proof.
  intros Hp. unfold extract_all.
  apply keeps_for_each_In; [eauto with keeps..|]. intros a Ha.
  unfold extract_one. keeps_auto.
  - apply contained_extract_by_suffix. rewrite List.Forall_forall in Hp |- *.
    intros n Hn. apply Hp, in_flat_map. eauto.
  - apply contained_same_fs;
      [apply grows_record_extracted | apply same_fs_record_extracted].
  - by apply contained_with_self.
Qed.

(** with plain member names a merge, returning or raising, leaves the
    tree outside its root exactly as it was *)
Lemma contained_process_archives d l ins t c :
  Forall (λ n, plain_name n = true) (flat_map file_names ins) →
  keeps (contained d l) (process_archives ins t c).
Proof.
  intros Hp. unfold process_archives. keeps_auto.
  all: try (by apply contained_with_self).
  - apply contained_same_fs; [apply grows_probe_all | apply same_fs_probe_all].
  - by apply contained_extract_all.
  - apply contained_same_fs;
      [apply grows_create_output_archive | apply same_fs_create_output_archive].
Qed.

(** X9. An output type outside the four is not refused:
    [create_output_archive] passes it over, so [process_archives]
    writes no output. For inputs that cannot write over the output
    (plain member names, and an output path that is not below the
    extraction root), on a merger whose root is there, the file at the
    output path is as it was whatever the call does, and so is the tree
    everywhere outside the root; and when nothing was at the output
    path the call raises, from the [stat()] of line 196. *)
Theorem unknown_output_type_writes_nothing ins t c s r s' d l :
  ¬ supported_output t →
  temp_dir (self s) = Some d → FS.dir_location (fs s) d = Some l →
  clear_of_output d (output_path (self s)) ins →
  process_archives ins t c s = (r, s') →
  out_file s' = out_file s ∧
  outside_same l (fs s) (fs s') ∧
  (out_file s = None → FS.exists_ (fs s) (output_path (self s)) = false →
   ∃ e, r = Raise e).
Proof.
  intros Ht Hd Hl [Hp _] H.
  assert (keeps same_out (process_archives ins t c)) as K.
  { unfold process_archives. rewrite (create_unknown _ _ Ht). keeps_auto; try done.
    - apply same_out_probe_all.
    - apply same_out_extract_all. }
  pose proof (K _ _ _ H) as Ho. split; [exact Ho|]. split.
  { by apply (contained_process_archives d l _ _ _ Hp _ _ _ H). }
  intros Hn _. destruct r as [res|e]; [|eauto]. exfalso.
  unfold process_archives in H.
  apply bind_Ok in H as (u0 & s0 & _ & H).
  apply bind_Ok in H as (n & s1 & _ & H).
  apply bind_Ok in H as (u2 & s2 & _ & H).
  apply bind_Ok in H as (u3 & s3 & _ & H).
  apply bind_Ok in H as (u4 & s4 & _ & H).
  apply bind_Ok in H as (u5 & s5 & _ & H).
  apply bind_Ok in H as (out & s6 & H6 & H). injection H6 as ? ?. subst out s6.
  destruct (out_file s5) as [o|] eqn:Eo; [|done].
  apply bind_Ok in H as (m & s7 & H7 & H). injection H7 as ? ?. subst m s7.
  injection H as ? ?. subst s'. unfold same_out in Ho. congruence.
Qed.

Lemma home_entered_root :
  FS.dir_location (fs Cases.home_entered) Scenario.root =
  Some ["tmp"; "archivemaster_k3"].
Proof. vm_compute. reflexivity. Qed.

Lemma unknown_output_type_writes_nothing_witness :
  out_file (process_archives [Scenario.a_zip] "7z" "deflate" Cases.home_entered).2 =
    None ∧
  ∃ e, (process_archives [Scenario.a_zip] "7z" "deflate" Cases.home_entered).1 =
       Raise e.
Proof.
  assert (¬ supported_output "7z") as Ht
    by (intros [H | [H | [H | H]]]; discriminate).
  assert (clear_of_output Scenario.root (output_path (self Cases.home_entered))
            [Scenario.a_zip]) as Hc.
  { split; [repeat constructor|]. intros [q Hq]. discriminate. }
  destruct (unknown_output_type_writes_nothing [Scenario.a_zip] "7z" "deflate"
              Cases.home_entered _ _ _ _ Ht eq_refl home_entered_root Hc
              (surjective_pairing _)) as (H1 & _ & H3).
  split; [exact H1|]. apply H3; reflexivity.
Defined.

(** * The command line *)

Lemma first_missing_In inputs a :
  In a inputs → path_exists a = false → ∃ b, first_missing inputs = Some b.
Proof.
  induction inputs as [|f r IH]; [done|]. intros [->|Hin] Ha; cbn.
  - rewrite Ha. cbn. eauto.
  - destruct (path_exists f); cbn; eauto.
Qed.

Lemma first_missing_None inputs :
  first_missing inputs = None → Forall (λ a, path_exists a = true) inputs.
Proof.
  induction inputs as [|f r IH]; [constructor|]. cbn.
  destruct (path_exists f) eqn:E; cbn; [|done]. intros H. constructor; auto.
Qed.

(** X13. The command line checks its inputs before it touches anything:
    when one of them does not exist, the process ends with status 1, no
    directory has been made for the output and the file at the output
    path is as it was. *)
Theorem cli_missing_input_changes_nothing args fresh f out a :
  In a (arg_inputs args) → path_exists a = false →
  cli_mode args fresh f out =
    {| exit_status := 1; tree_at_exit := f; out_at_exit := out |}.
Proof.
  intros Hin Ha. unfold cli_mode.
  by destruct (first_missing_In _ _ Hin Ha) as (b & ->).
Qed.

Lemma cli_missing_input_changes_nothing_witness :
  cli_mode Cases.cli_gone Scenario.root Scenario.tmp None =
    {| exit_status := 1; tree_at_exit := Scenario.tmp; out_at_exit := None |}.
Proof.
  apply (cli_missing_input_changes_nothing Cases.cli_gone _ _ _ Cases.gone_zip).
  - cbn. auto.
  - reflexivity.
Defined.

(** with an input it cannot dispatch and open, [process_archives] raises
    before it opens the output *)
Lemma process_archives_unreadable ins t c s r s' a :
  In a ins → ¬ readable a →
  process_archives ins t c s = (r, s') →
  (∃ e, r = Raise e) ∧ out_file s' = out_file s.
Proof.
  intros Hin Hn H. unfold process_archives in H.
  apply bind_any in H as [(e & -> & H)|(u0 & s0 & H0 & H)]; [done|].
  injection H0 as ? ?. subst u0 s0.
  apply bind_any in H as [(e & -> & H)|(n & s1 & H1 & H)].
  { split; [eauto|]. by apply same_out_probe_all in H. }
  apply same_out_probe_all in H1. unfold same_out in H1. cbn in H1.
  apply bind_any in H as [(e & -> & H)|(u2 & s2 & H2 & H)]; [done|].
  injection H2 as ? ?. subst u2 s2.
  apply bind_any in H as [(e & -> & H)|(u3 & s3 & H3 & H)]; [done|].
  injection H3 as ? ?. subst u3 s3.
  apply bind_any in H as [(e & -> & H)|(u4 & s4 & H4 & H)].
  { split; [eauto|]. apply same_out_extract_all in H. unfold same_out in H.
    cbn in H. congruence. }
  apply extract_all_readable in H4. exfalso. apply Hn.
  rewrite List.Forall_forall in H4. by apply H4.
Qed.

(** X14. The command line cannot merge an input the program cannot
    dispatch and open (an existing file whose name ends in [.tar.gz] is
    one, whatever it holds): for such arguments the process ends with
    status 1. *)
Theorem cli_fails_on_unreadable_input args fresh f out a :
  In a (arg_inputs args) → ¬ readable a →
  exit_status (cli_mode args fresh f out) = 1%Z.
Proof.
  intros Hin Hn. unfold cli_mode.
  destruct (first_missing (arg_inputs args)); [done|].
  destruct (FS.mkdir_parents f (PurePath.parent (arg_output args))) as [f1|e]; [|done].
  destruct (merge _ _ _ _ _ _ f1 out) as [r s] eqn:E. cbn.
  unfold merge in E. apply with_merger_run in E. cbn [fs] in E.
  destruct (FS.os_mkdir f1 fresh) as [f2|e].
  - destruct E as (s2 & u & B & X).
    by destruct (process_archives_unreadable _ _ _ _ _ _ _ Hin Hn B) as [(e & ->) _].
  - by destruct E as [-> ->].
Qed.

Lemma tar_gz_unreadable a :
  endswith (lower (PurePath.name (apath a))) ".tar.gz" = true → ¬ readable a.
Proof.
  intros H. apply tar_gz_suffix in H. unfold readable. rewrite H.
  intros [[? _]|[[? _]|[? _]]]; done.
Qed.

Lemma cli_fails_on_unreadable_input_witness :
  exit_status (cli_mode Cases.cli_tar_gz Scenario.root Scenario.tmp None) = 1%Z.
Proof.
  apply (cli_fails_on_unreadable_input Cases.cli_tar_gz _ _ _ Scenario.b_tar_gz).
  - cbn. auto.
  - apply tar_gz_unreadable. reflexivity.
Defined.

Lemma sorted_length l : length (sorted l) = length l.
Proof. apply Permutation_length, sorted_Permutation. Qed.

(** X15. Exit status 0 of the command line means that argparse ended the
    process itself with status 0 (the help was asked for), or that the
    merge was done: every input existed and was dispatched and opened,
    the output archive has been written, and nothing is left at or
    below the extraction root. The output then has one member for every
    file member of the inputs when it is a zip, and for the other
    formats when no input can write over the output. *)
Theorem cli_status_zero_means_written p fresh f out :
  exit_status (cli_process p fresh f out) = 0%Z →
  p = ParseExit 0 ∨
  ∃ args, p = Parsed args ∧
    Forall (λ a, path_exists a = true ∧ readable a) (arg_inputs args) ∧
    (∃ o, out_at_exit (cli_process p fresh f out) = Some o ∧
          (arg_format args = "zip" ∨
           supported_output (arg_format args) ∧
           clear_of_output fresh (arg_output args) (arg_inputs args) →
           length (members o) = length (flat_map file_names (arg_inputs args)))) ∧
    ∀ k, under (location fresh) k →
         tree_at_exit (cli_process p fresh f out) !! k = None.
Proof.
  destruct p as [st|args]; cbn [cli_process].
  { cbn. intros ->. by left. }
  intros H0. right. exists args. split; [done|]. revert H0. unfold cli_mode.
  destruct (first_missing (arg_inputs args)) eqn:Em; [done|].
  apply first_missing_None in Em.
  destruct (FS.mkdir_parents f (PurePath.parent (arg_output args))) as [f1|e]; [|done].
  destruct (merge _ _ _ _ _ _ f1 out) as [r s] eqn:E. cbn.
  destruct r as [res|e]; [intros _|done].
  pose proof E as E0.
  apply merge_Ok in E as (s1 & s2 & Hd & B & Ho).
  pose proof (process_archives_returns _ _ _ _ _ _ B) as [_ Hr].
  apply (process_archives_Ok fresh) in B as (_ & _ & _ & _ & _ & o & Hs & _); [|done].
  split; [|split].
  - rewrite List.Forall_forall in Em, Hr. apply List.Forall_forall.
    intros a Ha. split; auto.
  - exists o. split; [congruence|]. intros Ht.
    assert (supported_output (arg_format args)) as Hsup.
    { destruct Ht as [->|[? _]]; [by left | done]. }
    assert (out_file s = Some o) as Hso by congruence.
    pose proof (merge_manifest _ _ _ _ _ _ _ _ _ _ _ Hsup E0 Hso) as Hm.
    apply (f_equal length) in Hm.
    rewrite sorted_length, !length_map in Hm. done.
  - intros k Hk. unfold merge in E0. apply with_merger_run in E0. cbn [fs] in E0.
    destruct (FS.os_mkdir f1 fresh) as [f2|e] eqn:Ek; [|by destruct E0].
    destruct E0 as (s3 & u & B & X).
    apply grows_process_archives in B as [Hle Htd]. cbn in Hle, Htd.
    eapply exit_releases; [exact X | | exact Hk].
    exists fresh. split; [done|].
    eapply dir_location_le; [exact Hle|]. by apply (os_mkdir_location f1).
Qed.

Lemma cli_zips_status :
  exit_status (cli_process (Parsed Cases.cli_zips) Scenario.root Scenario.tmp None) =
  0%Z.
Proof. vm_compute. reflexivity. Qed.

Lemma cli_status_zero_means_written_witness :
  Parsed Cases.cli_zips = ParseExit 0 ∨
  ∃ args, Parsed Cases.cli_zips = Parsed args ∧
    Forall (λ a, path_exists a = true ∧ readable a) (arg_inputs args) ∧
    (∃ o, out_at_exit (cli_process (Parsed Cases.cli_zips) Scenario.root
                         Scenario.tmp None) = Some o ∧
          (arg_format args = "zip" ∨
           supported_output (arg_format args) ∧
           clear_of_output Scenario.root (arg_output args) (arg_inputs args) →
           length (members o) = length (flat_map file_names (arg_inputs args)))) ∧
    ∀ k, under (location Scenario.root) k →
         tree_at_exit (cli_process (Parsed Cases.cli_zips) Scenario.root
                         Scenario.tmp None) !! k = None.
Proof.
  exact (cli_status_zero_means_written (Parsed Cases.cli_zips) Scenario.root
           Scenario.tmp None cli_zips_status).
Defined.

(** * The file list of the window *)

(** the extensions [add_files] lets in are the ones [process_archives]
    has an extractor for *)
Lemma accepted_recognised ext :
  str_in ext accepted_suffixes = true ↔ recognised ext.
Proof.
  unfold recognised, str_in, accepted_suffixes, tar_suffixes. cbn [existsb].
  rewrite !orb_true_iff, !String.eqb_eq. intuition (auto; discriminate).
Qed.

Lemma path_in_spec path l :
  path_in path l = true ↔ apath path ∈ map apath l.
Proof.
  unfold path_in. induction l as [|q l IH]; cbn.
  - split; [done|]. by intros ?%elem_of_nil.
  - rewrite orb_true_iff, IH, bool_decide_eq_true, elem_of_cons.
    split; (intros [H|H]; [left; congruence | by right]).
Qed.

Lemma add_file_inv g path : list_inv g → list_inv (add_file g path).
Proof.
  intros (Hm & Hn & Hf). unfold add_file.
  destruct (path_exists path) eqn:Ee; cbn [andb]; [|done].
  destruct (str_in (lower (PurePath.suffix (apath path))) accepted_suffixes) eqn:Es;
    [|done].
  destruct (path_in path (archive_files g)) eqn:Ei; cbn [negb]; [done|].
  split; [|split]; cbn.
  - unfold listbox_mirrors in *. cbn. by rewrite Hm, map_app.
  - rewrite map_app. apply NoDup_app. split; [done|]. split; [|apply NoDup_singleton].
    intros x Hx ->%list_elem_of_singleton.
    apply path_in_spec in Hx. congruence.
  - apply Forall_app. split; [done|]. constructor; [|constructor].
    split; [done|]. by apply accepted_recognised.
Qed.

Lemma add_files_inv files g : list_inv g → list_inv (add_files files g).
Proof.
  unfold add_files. revert g.
  induction files as [|a files IH]; intros g H; cbn; [done|].
  by apply IH, add_file_inv.
Qed.

Lemma map_delete {A B} (f : A → B) i (l : list A) :
  map f (delete i l) = delete i (map f l).
Proof. revert i. induction l as [|x l IH]; intros [|i]; cbn; [done..|]. by rewrite IH. Qed.

Lemma pop_row_inv idx g g' : list_inv g → pop_row idx g = Some g' → list_inv g'.
Proof.
  intros (Hm & Hn & Hf). unfold pop_row.
  destruct (idx <? _)%nat; [|done]. intros [= <-]. split; [|split]; cbn.
  - unfold listbox_mirrors in *. cbn. by rewrite Hm, map_delete.
  - rewrite map_delete. eapply sublist_NoDup; [exact Hn|]. apply sublist_delete.
  - by apply Forall_delete.
Qed.

Lemma pop_rows_inv idxs g g' : list_inv g → pop_rows idxs g = Some g' → list_inv g'.
Proof.
  revert g. induction idxs as [|i r IH]; intros g H; cbn.
  - by intros [= <-].
  - destruct (pop_row i g) as [g1|] eqn:E; [|done]. eauto using pop_row_inv.
Qed.

Lemma remove_selected_inv sel g g' :
  list_inv g → remove_selected sel g = Some g' → list_inv g'.
Proof.
  intros H. unfold remove_selected. destruct sel as [|i sel]; [by intros [= <-]|].
  destruct (pop_rows _ g) as [g1|] eqn:E; [|done]. intros [= <-].
  by apply (pop_rows_inv _ _ _ H) in E.
Qed.

Lemma reachable_list_inv g : gui_reachable g → list_inv g.
Proof.
  induction 1.
  - split; [done|]. split; constructor.
  - by apply add_files_inv.
  - eauto using remove_selected_inv.
  - split; [done|]. split; constructor.
Qed.

(** X16. However the window got there by adding, removing and clearing:
    the rows of the listbox are the names of the listed files, in order;
    no path is listed twice; and every listed file existed when it was
    added and has an extension [process_archives] has an extractor
    for. *)
Theorem listbox_follows_the_file_list g :
  gui_reachable g →
  listbox_mirrors g ∧ NoDup (map apath (archive_files g)) ∧
  Forall (λ a, path_exists a = true ∧
               recognised (lower (PurePath.suffix (apath a)))) (archive_files g).
Proof. apply reachable_list_inv. Qed.

Lemma listbox_follows_the_file_list_witness :
  let g := add_files [Scenario.a_zip; Scenario.b_zip; Scenario.a_zip] gui_init in
  listbox_mirrors g ∧ NoDup (map apath (archive_files g)) ∧
  Forall (λ a, path_exists a = true ∧
               recognised (lower (PurePath.suffix (apath a)))) (archive_files g).
Proof.
  exact (listbox_follows_the_file_list _ (reach_add _ _ reach_init)).
Defined.

Lemma add_file_prefix g path :
  archive_files g `prefix_of` archive_files (add_file g path).
Proof.
  unfold add_file. destruct (_ && _); [|done].
  destruct (negb _); [|done]. cbn. by apply prefix_app_r.
Qed.

Lemma add_file_In g path a :
  In a (archive_files (add_file g path)) →
  In a (archive_files g) ∨ (a = path ∧ listed_ok path).
Proof.
  unfold add_file. destruct (path_exists path) eqn:Ee; cbn [andb]; [|auto].
  destruct (str_in (lower (PurePath.suffix (apath path))) accepted_suffixes) eqn:Es;
    [|auto].
  destruct (negb _); [|auto]. cbn [archive_files]. rewrite in_app_iff. cbn [In].
  intros [?|[<-|[]]]; [auto|]. right. split; [done|]. split; [done|].
  by apply accepted_recognised.
Qed.

Lemma add_file_listed g path :
  listed_ok path → apath path ∈ map apath (archive_files (add_file g path)).
Proof.
  intros [He Hr]. apply accepted_recognised in Hr. unfold add_file.
  rewrite He, Hr. cbn [andb].
  destruct (path_in path (archive_files g)) eqn:Ei; cbn [negb archive_files].
  - by apply path_in_spec.
  - rewrite map_app. apply elem_of_app. right. cbn. by left.
Qed.

(** X17. What [add_files] does to the list: the files listed before stay
    in their places, at the front; a file is added only if it is among
    the chosen ones, exists and has an extension [process_archives] has
    an extractor for; and every chosen file of that kind is listed
    after the call. *)
Theorem add_files_lists_what_it_accepts files g :
  archive_files g `prefix_of` archive_files (add_files files g) ∧
  (∀ a, In a (archive_files (add_files files g)) →
        In a (archive_files g) ∨
        (In a files ∧ path_exists a = true ∧
         recognised (lower (PurePath.suffix (apath a))))) ∧
  (∀ a, In a files → path_exists a = true →
        recognised (lower (PurePath.suffix (apath a))) →
        apath a ∈ map apath (archive_files (add_files files g))).
Proof.
  unfold add_files. revert g.
  induction files as [|p files IH]; intros g; cbn.
  - split; [done|]. split; [auto|]. by intros a [].
  - destruct (IH (add_file g p)) as (I1 & I2 & I3). split; [|split].
    + etrans; [apply add_file_prefix | exact I1].
    + intros a Ha. apply I2 in Ha as [Ha|(? & ? & ?)]; [|by auto].
      apply add_file_In in Ha as [?|[-> [? ?]]]; auto.
    + intros a [->|Ha] He Hr; [|by apply I3].
      pose proof (add_file_listed g a (conj He Hr)) as Hl.
      destruct I1 as (k & ->). rewrite map_app. apply elem_of_app. by left.
Qed.

Lemma add_files_lists_what_it_accepts_witness :
  PurePath.parse "b.zip" ∈
    map apath (archive_files
                 (add_files [Scenario.b_tar_gz; Scenario.b_zip] gui_init)).
Proof.
  exact (proj2 (proj2 (add_files_lists_what_it_accepts
                         [Scenario.b_tar_gz; Scenario.b_zip] gui_init))
           Scenario.b_zip (or_intror (or_introl eq_refl)) eq_refl
           (or_intror (or_introl eq_refl))).
Defined.

(** X18. A chosen file whose name ends in [.tar.gz] or [.tar.bz2] is
    passed over without a word, although the dialog offers these names
    and the list of line 333 holds both: the suffix of such a path is
    [.gz] or [.bz2]. With only such files chosen, [add_files] leaves the
    list, the listbox and the status bar as they were. *)
Theorem add_files_passes_over_tar_gz files g :
  Forall (λ a, endswith (lower (PurePath.name (apath a))) ".tar.gz" = true ∨
               endswith (lower (PurePath.name (apath a))) ".tar.bz2" = true) files →
  add_files files g = g.
Proof.
  unfold add_files. induction 1 as [|a files Ha _ IH]; cbn; [done|].
  assert (add_file g a = g) as ->; [|done].
  unfold add_file.
  destruct Ha as [Ha|Ha]; [apply tar_gz_suffix in Ha | apply tar_bz2_suffix in Ha];
    rewrite Ha; cbn; by rewrite andb_false_r.
Qed.

Lemma add_files_passes_over_tar_gz_witness :
  add_files [Scenario.b_tar_gz] gui_init = gui_init.
Proof.
  apply add_files_passes_over_tar_gz. constructor; [|constructor].
  left. reflexivity.
Defined.

(** ** Removing rows *)

Lemma rows_kept_none {A} (sel : list nat) (k : nat) (l : list A) :
  (∀ j, j ∈ sel → (j < k)%nat) → rows_kept sel k l = l.
Proof.
  revert k. induction l as [|x l IH]; intros k H; cbn; [done|].
  rewrite bool_decide_eq_false_2.
  - f_equal. apply IH. intros j Hj. specialize (H j Hj). lia.
  - intros Hk. specialize (H k Hk). lia.
Qed.

Lemma rows_kept_ext {A} s1 s2 k (l : list A) :
  (∀ j, j ∈ s1 ↔ j ∈ s2) → rows_kept s1 k l = rows_kept s2 k l.
Proof.
  intros H. revert k. induction l as [|x l IH]; intros k; cbn; [done|].
  rewrite (bool_decide_ext _ _ (H k)), !IH. done.
Qed.

(** deleting the row numbered [i] after the rows selected below it *)
Lemma rows_kept_delete {A} (i : nat) (r : list nat) (k : nat) (l : list A) :
  (k ≤ i)%nat → (∀ j, j ∈ r → (j < i)%nat) →
  rows_kept r k (delete (i - k) l) = rows_kept (i :: r) k l.
Proof.
  revert k. induction l as [|x l IH]; intros k Hk Hr; [done|].
  destruct (decide (i = k)) as [->|Hne].
  - rewrite Nat.sub_diag. cbn.
    rewrite bool_decide_eq_true_2 by left.
    rewrite !rows_kept_none; [done| |done].
    intros j [->|Hj]%elem_of_cons; [lia|]. specialize (Hr j Hj). lia.
  - pose proof (IH (S k) ltac:(lia) Hr) as E.
    replace (i - k) with (S (i - S k)) by lia.
    change (delete (S (i - S k)) (x :: l)) with (x :: delete (i - S k) l).
    cbn [rows_kept]. rewrite E.
    assert (bool_decide (k ∈ i :: r) = bool_decide (k ∈ r)) as ->; [|done].
    apply bool_decide_ext. rewrite elem_of_cons.
    split; [intros [?|?]; [lia | done] | auto].
Qed.

Lemma pop_rows_descending ds g :
  StronglySorted (flip lt) ds →
  Forall (λ i, (i < length (archive_files g))%nat) ds →
  pop_rows ds g =
    Some {| archive_files := rows_kept ds 0 (archive_files g);
            file_listbox := rows_kept ds 0 (file_listbox g);
            status_bar := status_bar g |}.
Proof.
  intros Hs. revert g. induction Hs as [|i r Hs IH Hi]; intros g Hb; cbn.
  - rewrite !rows_kept_none by (by intros ? ?%elem_of_nil). by destruct g.
  - apply Forall_cons in Hb as [Hib Hb]. unfold pop_row.
    rewrite (proj2 (Nat.ltb_lt _ _) Hib).
    rewrite Forall_forall in Hi. unfold flip in Hi.
    rewrite IH; cbn.
    + rewrite <- !(rows_kept_delete i r 0) by (lia || done).
      by rewrite Nat.sub_0_r.
    + rewrite length_delete by (by apply lookup_lt_is_Some).
      rewrite Forall_forall in Hb |- *. intros j Hj. specialize (Hi j Hj). lia.
Qed.

(** X19. [remove_selected] removes the selected rows and no others. For
    a selection in increasing order of rows that are there (what
    [curselection()] gives), the call returns, and the file list and the
    listbox both keep exactly the rows that were not selected, in their
    order. Going through the selection from its end is what makes the
    numbers of the rows still to remove stay right. *)
Theorem remove_selected_removes_the_selection sel g :
  StronglySorted lt sel →
  Forall (λ i, (i < length (archive_files g))%nat) sel →
  ∃ g', remove_selected sel g = Some g' ∧
        archive_files g' = rows_kept sel 0 (archive_files g) ∧
        file_listbox g' = rows_kept sel 0 (file_listbox g).
Proof.
  intros Hs Hb. unfold remove_selected.
  destruct sel as [|i sel].
  { exists g. by rewrite !rows_kept_none by (by intros ? ?%elem_of_nil). }
  rewrite pop_rows_descending.
  - eexists. split; [done|]. cbn [archive_files file_listbox].
    split; apply rows_kept_ext; intros j; apply elem_of_reverse.
  - apply Sorted_StronglySorted; [intros x y z; unfold flip; lia|].
    apply Sorted_reverse. by apply StronglySorted_Sorted.
  - rewrite Forall_forall in Hb |- *. intros j Hj. apply Hb.
    by apply elem_of_reverse.
Qed.

Lemma remove_selected_removes_the_selection_witness :
  ∃ g', remove_selected [0; 2] Cases.three_listed = Some g' ∧
        archive_files g' = rows_kept [0; 2] 0 (archive_files Cases.three_listed) ∧
        file_listbox g' = rows_kept [0; 2] 0 (file_listbox Cases.three_listed).
Proof.
  apply remove_selected_removes_the_selection.
  - repeat constructor.
  - repeat constructor.
Defined.

(** the first and the third of three rows removed: the second is left *)
Example remove_first_and_third :
  file_listbox <$> remove_selected [0; 2] Cases.three_listed = Some ["b.zip"].
Proof. reflexivity. Qed.

(** a selection out of order removes other rows than the selected ones:
    from the end, [[2; 0]] removes row 0 and then what has become row
    2, which is not there *)
Example selection_out_of_order :
  remove_selected [2; 0] Cases.three_listed = None.
Proof. reflexivity. Qed.

(** * From the window to the merge *)

(** X20. A file the window lists never gets as far as the extraction
    loop when it cannot be opened: whatever was added, removed or
    cleared before, a merge of the listed files with one of them
    unreadable raises while probing, with the tree and the file at the
    output path untouched. (From the command line a name such as
    [b.tar.gz] is found only after the inputs before it have been
    extracted.) *)
Theorem listed_files_fail_while_probing g a t c s r s' :
  gui_reachable g → In a (archive_files g) → ¬ readable a →
  process_archives (archive_files g) t c s = (r, s') →
  (∃ e, r = Raise e) ∧ fs s' = fs s ∧ out_file s' = out_file s.
Proof.
  intros Hg Hin Hn H.
  destruct (reachable_list_inv g Hg) as (_ & _ & Hf).
  rewrite List.Forall_forall in Hf. destruct (Hf a Hin) as [_ Hrec].
  unfold process_archives in H.
  unfold bind at 1 in H. unfold modify at 1 in H.
  destruct (probe_all_raises (archive_files g) a
              (with_self (set_extracted_files []) s) Hin
              (probe_unreadable _ _ Hrec Hn)) as (e & E).
  unfold bind at 1 in H. rewrite E in H. injection H as <- <-. eauto.
Qed.

Lemma listed_files_fail_while_probing_witness :
  ∃ e, (process_archives (archive_files Cases.junk_listed) "zip" "deflate"
          Scenario.entered).1 = Raise e.
Proof.
  destruct (listed_files_fail_while_probing Cases.junk_listed Cases.junk_zip
              "zip" "deflate" Scenario.entered _ _
              (reach_add _ _ reach_init) (or_intror (or_introl eq_refl))
              ltac:(by intros [[? _]|[[_ [? ?]]|[? _]]])
              (surjective_pairing _)) as [[e He] _].
  exists e. exact He.
Defined.
